(** * ddagent.py: the transaction queue, the intake handler and the
      check-process supervisor of the forwarding agent.

    A shallow embedding of [src/ddagent.py].  The class attributes of
    [Transaction] ([_transactions], [_counter], [_trs_to_flush]) are the
    fields of an explicit [State]; the [Transaction] instances live in an
    object store and the two lists hold references into it, so that the
    mutation done by [error] is seen through every alias.  Python
    exceptions are the [Raise] outcome of a small state-and-exception
    monad.  Every reading of [datetime.now()] is an argument of the
    operation that reads it.  The calls into tornado that decide what the
    program does are part of the model: [get_argument], by which the
    handler reads the fields of a request, is written out, and
    [parse_command_line], which may end [main], is an argument of
    [main_argv]. *)

From Stdlib Require Import ZArith List Ascii String Bool Lia.
From stdpp Require Import base list sorting.
Import ListNotations.
Local Open Scope Z_scope.

(** ** Time

    A naive [datetime] is its number of microseconds on the local time
    line and a [timedelta] its total number of microseconds: both are
    normalised by Python, and their comparisons are the comparisons of these
    numbers.  The ends of the two ranges (the year 9999, a thousand million
    days) are left out. *)

Definition datetime := Z.
Definition timedelta := Z.

Definition MICROS : Z := 1000000.

(** [timedelta(seconds = n)] *)
Definition timedelta_seconds (n : Z) : timedelta := n * MICROS.

(** [d.microsecond] *)
Definition microsecond (d : datetime) : Z := d mod MICROS.

(** [d.replace(microsecond = 0)] *)
Definition replace_microsecond_0 (d : datetime) : datetime := d - microsecond d.

(** ** Transactions *)

(** The decoded message: what [json_decode] returns.  [PyNone] is Python's
    [None] (the decoding of [null]). *)
#[local] Unset Elimination Schemes.
Inductive pyvalue : Type :=
  | PyNone
  | PyBool (b : bool)
  | PyInt (n : Z)
  | PyStr (s : string)
  | PyList (l : list pyvalue)
  | PyDict (d : list (string * pyvalue)).
#[local] Set Elimination Schemes.

Record Transaction : Type := mkTransaction {
  _id : Z;
  _data : pyvalue;
  _error_count : Z;
  _next_flush : datetime
}.

(** [time_to_flush(self, now)] *)
Definition time_to_flush (self : Transaction) (now : datetime) : bool :=
  _next_flush self <? now.

(** The [td] of [compute_next_flush]: twenty seconds per error, one minute
    at most. *)
Definition retry_delay (error_count : Z) : timedelta :=
  let td := timedelta_seconds (error_count * 20) in
  if timedelta_seconds 60 <? td then timedelta_seconds 60 else td.

(** [compute_next_flush(self)], [now] being what [datetime.now()] returns. *)
Definition compute_next_flush (now : datetime) (self : Transaction) : Transaction :=
  let td := retry_delay (_error_count self) in
  let newdate := now + td in
  {| _id := _id self; _data := _data self;
     _error_count := _error_count self;
     _next_flush := replace_microsecond_0 newdate |}.

(** ** The state of the process

    The object store holds every [Transaction] instance ever built, at the
    address it was allocated at; a reference is such an address.  An
    instance that no list refers to any more is garbage, which Python
    collects and nothing observes. *)

Abbreviation ref := nat (only parsing).

Record HTTPRequest : Type := mkHTTPRequest {
  req_url : string;
  req_method : string;
  req_body : option string
}.

(** A call [http.fetch(req, callback = lambda(x): Transaction.on_response(tr, url, x))]:
    the request and what the callback closes over. *)
Record Fetch : Type := mkFetch {
  fetch_req : HTTPRequest;
  fetch_tr : ref;
  fetch_url : string
}.

Inductive level : Type := DEBUG | INFO | WARNING | ERROR.

(** The log lines, by their format string and its arguments. *)
Inductive message : Type :=
  | MsgCreated (id : Z)
  | MsgFlushInProgress
  | MsgFlushing (count : nat) (suffix : string)
  | MsgSending (id : Z)
  | MsgInError (id : Z) (count : Z) (suffix : string) (next : datetime)
  | MsgCompleted (id : Z)
  | MsgMalformed (c_hash msg_hash : string)
  | MsgEmitterException
  | MsgPreviousStillRunning
  | MsgRunningLocalChecks
  | MsgArgs (args : list string)
  | MsgException
  | MsgCheckingOnChild
  | MsgChildExited (pid status : Z)
  | MsgErrorWhileRunningChecks
  | MsgChildStillRunning (pid : Z).

Record State : Type := mkState {
  heap : list Transaction;
  _transactions : list ref;
  _counter : Z;
  _trs_to_flush : option (list ref);
  fetches : list Fetch;
  pending : list Fetch;
  log : list (level * message)
}.

Definition set_heap (h : list Transaction) (s : State) : State :=
  mkState h (_transactions s) (_counter s) (_trs_to_flush s) (fetches s) (pending s) (log s).
Definition set_transactions (l : list ref) (s : State) : State :=
  mkState (heap s) l (_counter s) (_trs_to_flush s) (fetches s) (pending s) (log s).
Definition set_counter (c : Z) (s : State) : State :=
  mkState (heap s) (_transactions s) c (_trs_to_flush s) (fetches s) (pending s) (log s).
Definition set_trs_to_flush (c : option (list ref)) (s : State) : State :=
  mkState (heap s) (_transactions s) (_counter s) c (fetches s) (pending s) (log s).
Definition set_fetches (f p : list Fetch) (s : State) : State :=
  mkState (heap s) (_transactions s) (_counter s) (_trs_to_flush s) f p (log s).
Definition set_log (l : list (level * message)) (s : State) : State :=
  mkState (heap s) (_transactions s) (_counter s) (_trs_to_flush s) (fetches s) (pending s) l.

(** The state of a process that has just started. *)
Definition initial : State := mkState [] [] 0 None [] [] [].

(** ** Exceptions and the monad *)

Inductive exn : Type :=
  | NameError (name : string)
  | ValueError
  | UnicodeEncodeError
  | TypeError
  | IndexError
  | HTTPError (status_code : Z)
  | DanglingReference.

Inductive outcome (A : Type) : Type :=
  | Ok (a : A)
  | Raise (e : exn).
Arguments Ok {A} a.
Arguments Raise {A} e.

Definition M (A : Type) : Type := State -> outcome A * State.

#[global] Instance M_ret : MRet M := fun A (a : A) s => (Ok a, s).
#[global] Instance M_bind : MBind M := fun A B (k : A -> M B) (c : M A) s =>
  match c s with
  | (Ok a, s') => k a s'
  | (Raise e, s') => (Raise e, s')
  end.

Definition raise {A : Type} (e : exn) : M A := fun s => (Raise e, s).
Definition gets {A : Type} (f : State -> A) : M A := fun s => (Ok (f s), s).
Definition modify (f : State -> State) : M unit := fun s => (Ok tt, f s).

(** The state an operation leaves, whether it returned or raised. *)
Definition exec {A : Type} (c : M A) (s : State) : State := snd (c s).
Definition result {A : Type} (c : M A) (s : State) : outcome A := fst (c s).

(** Reading an instance through a reference.  A reference held by a well
    formed state is never dangling; [DanglingReference] is no exception of
    Python's. *)
Definition load (r : ref) : M Transaction := fun s =>
  match heap s !! r with
  | Some o => (Ok o, s)
  | None => (Raise DanglingReference, s)
  end.

(** Mutating the instance behind a reference. *)
Definition update (r : ref) (f : Transaction -> Transaction) : M unit :=
  modify (fun s => set_heap (alter f r (heap s)) s).

Definition logging (lv : level) (m : message) : M unit :=
  modify (fun s => set_log (log s ++ [(lv, m)]) s).

(** [plural(count)] *)
Definition plural (count : Z) : string :=
  if 1 <? count then "s"%string else ""%string.

(** ** class Application: the check-process supervisor

    The children of the process, as the operating system has them: those
    that run, and those that have exited and wait to be reaped, with their
    status. *)
Record OS : Type := mkOS {
  running : list (Z * list string);
  zombies : list (Z * Z)
}.

Record Application : Type := mkApplication {
  _check_pid : Z;
  app_log : list (level * message)
}.

(** [Application.__init__] sets [self._check_pid = -1]. *)
Definition Application_init : Application := mkApplication (-1) [].

Definition app_logging (lv : level) (m : message) (self : Application) : Application :=
  mkApplication (_check_pid self) (app_log self ++ [(lv, m)]).

(** The [args] of [run_checks]. *)
Definition check_args (executable file : string) (firstRun : bool) : list string :=
  [executable; file; "--action=runchecks"%string]
  ++ (if firstRun then ["--firstRun=yes"%string] else []).

(** [run_checks(self, firstRun)].  [popen] is what [Popen(args)] does when
    it is called: [Some pid] starts a child with that pid, [None] raises. *)
Definition run_checks (executable file : string) (firstRun : bool) (popen : option Z)
    (self : Application) (os : OS) : bool * Application * OS :=
  if 0 <? _check_pid self then
    (false, app_logging WARNING MsgPreviousStillRunning self, os)
  else
    let args := check_args executable file firstRun in
    let self1 := app_logging INFO (MsgArgs args) (app_logging INFO MsgRunningLocalChecks self) in
    match popen with
    | Some pid =>
        (true, mkApplication pid (app_log self1),
         mkOS (running os ++ [(pid, args)]) (zombies os))
    | None =>
        (false, app_logging ERROR MsgException self1, os)
    end.

Fixpoint remove_zombie (pid : Z) (z : list (Z * Z)) : list (Z * Z) :=
  match z with
  | [] => []
  | (p, st) :: z' => if p =? pid then z' else (p, st) :: remove_zombie pid z'
  end.

Fixpoint zombie_status (pid : Z) (z : list (Z * Z)) : option Z :=
  match z with
  | [] => None
  | (p, st) :: z' => if p =? pid then Some st else zombie_status pid z'
  end.

(** [os.waitpid(pid, os.WNOHANG)] for a positive [pid]: [(0, 0)] while the
    child runs, [(pid, status)] once when it has exited, and [None], an
    [OSError], when the process has no such child. *)
Definition waitpid_nohang (pid : Z) (os : OS) : option (Z * Z * OS) :=
  if existsb (fun c => fst c =? pid) (running os) then Some (0, 0, os)
  else match zombie_status pid (zombies os) with
       | Some st => Some (pid, st, mkOS (running os) (remove_zombie pid (zombies os)))
       | None => None
       end.

(** [process_check(self)]; an [OSError] of [waitpid] leaves the method
    where it was raised. *)
Definition process_check (self : Application) (os : OS) : Application * OS :=
  if 0 <? _check_pid self then
    let self1 := app_logging DEBUG MsgCheckingOnChild self in
    match waitpid_nohang (_check_pid self1) os with
    | None => (self1, os)
    | Some (pid, status, os') =>
        if negb ((pid =? 0) && (status =? 0)) then
          let self2 := app_logging DEBUG (MsgChildExited pid status) self1 in
          let self3 := if negb (status =? 0)
                       then app_logging ERROR MsgErrorWhileRunningChecks self2
                       else self2 in
          (mkApplication (-1) (app_log self3), os')
        else
          (app_logging DEBUG (MsgChildStillRunning (_check_pid self1)) self1, os')
    end
  else (self, os).

(** A running child exits with a status: the operating system's move. *)
Definition child_exits (pid status : Z) (os : OS) : OS :=
  mkOS (filter (fun c => negb (fst c =? pid)) (running os))
       (zombies os ++ [(pid, status)]).

(** What the supervisor and the operating system can do, one move at a
    time.  A pid the system hands out is positive and is not the pid of a
    child it still knows. *)
Inductive sup_step (executable file : string) :
    Application * OS -> Application * OS -> Prop :=
  | step_run_checks (firstRun : bool) (popen : option Z) (self : Application) (os : OS) :
      (forall pid, popen = Some pid ->
         0 < pid /\ ~ In pid (map fst (running os)) /\ ~ In pid (map fst (zombies os))) ->
      sup_step executable file (self, os)
        (snd (fst (run_checks executable file firstRun popen self os)),
         snd (run_checks executable file firstRun popen self os))
  | step_process_check (self : Application) (os : OS) :
      sup_step executable file (self, os) (process_check self os)
  | step_child_exits (pid status : Z) (self : Application) (os : OS) :
      In pid (map fst (running os)) ->
      sup_step executable file (self, os) (self, child_exits pid status os).

Inductive sup_reachable (executable file : string) : Application * OS -> Prop :=
  | reach_init : sup_reachable executable file (Application_init, mkOS [] [])
  | reach_step (w w' : Application * OS) :
      sup_reachable executable file w -> sup_step executable file w w' ->
      sup_reachable executable file w'.

(** No child runs, or one does and it is the one [_check_pid] tracks. *)
Definition tracked (w : Application * OS) : Prop :=
  running (snd w) = [] \/
  exists args, running (snd w) = [(_check_pid (fst w), args)] /\ 0 < _check_pid (fst w).

(** The handle is clear and no child runs, or it is the pid of the one
    child the process has, which runs or waits to be reaped. *)
Definition handle_ok (w : Application * OS) : Prop :=
  (_check_pid (fst w) = -1 /\ running (snd w) = []) \/
  (0 < _check_pid (fst w) /\
   ((exists args, running (snd w) = [(_check_pid (fst w), args)]) \/
    (running (snd w) = [] /\ In (_check_pid (fst w)) (map fst (zombies (snd w)))))).

(** ** main: the arguments left to [get_config]

    [option_names] is [options.keys()] when the loop runs: the options
    [main] defines and those tornado defines itself. *)

(** [knownoptions = [ "--" + o for o in options.keys()]] *)
Definition knownoptions (option_names : list string) : list string :=
  map (fun o => ("--" ++ o)%string) option_names.

(** The inner loop: [known] when it ends.  [arg.startswith(opt)] is
    [String.prefix opt arg]. *)
Fixpoint known (arg : string) (opts : list string) : bool :=
  match opts with
  | [] => false
  | opt :: rest => if String.prefix opt arg then true else known arg rest
  end.

(** The outer loop over [sys.argv]: [newargs] when it ends. *)
Fixpoint strip_loop (opts : list string) (argv newargs : list string) : list string :=
  match argv with
  | [] => newargs
  | arg :: rest =>
      if known arg opts then strip_loop opts rest newargs
      else strip_loop opts rest (newargs ++ [arg])
  end.

(** Lines 240 to 252 of [main]: the [newargs] it assigns to [sys.argv]. *)
Definition strip_known_options (option_names argv : list string) : list string :=
  strip_loop (knownoptions option_names) argv [].

(** [main], from its start to [sys.argv = newargs] (lines 230 to 252).
    [parse_command_line] is tornado's: it reads [sys.argv] and leaves it as
    it is, and it returns the arguments it has not parsed, or does not
    return: it raises on an option it does not recognise or a value it
    cannot parse, and exits on [--help].  [main] makes no use of what it
    returns.  The result is the [sys.argv] that [get_config] finds, and
    [None] when [main] has ended in [parse_command_line], with [sys.argv]
    as it was. *)
Definition main_argv (parse_command_line : list string -> option (list string))
    (option_names argv : list string) : option (list string) :=
  match parse_command_line argv with
  | None => None
  | Some args => Some (strip_known_options option_names argv)
  end.

(** ** The module's global names

    The names bound at the top level of [ddagent.py], by its imports, its
    assignments, its [def]s and its [class]es.  A global name that is
    neither here nor a builtin raises [NameError] where it is evaluated. *)
Definition module_globals : list string :=
  [ "logging"; "os"; "sys"; "Popen"; "md5"; "datetime"; "timedelta";
    "tornado"; "json_decode"; "define"; "parse_command_line"; "options";
    "get_config"; "get_system_stats"; "get_parsed_args";
    "http_emitter"; "format_body"; "checks";
    "CHECK_INTERVAL"; "PROCESS_CHECK_INTERVAL"; "TRANSACTION_FLUSH_INTERVAL";
    "plural"; "Transaction"; "AgentInputHandler"; "Application"; "main" ]%string.

Definition global_name (name : string) : M unit :=
  if existsb (String.eqb name) module_globals then mret tt
  else raise (NameError name).

(** ** Lists of references *)

(** [l.pop()]: the last element and the list without it; [None] is the
    [IndexError] of an empty list. *)
Definition pop (l : list ref) : option (ref * list ref) :=
  match rev l with
  | [] => None
  | x :: r => Some (x, rev r)
  end.

(** [l.remove(x)]: [l] without its first [x]; [None] is the [ValueError]
    of a list that does not hold [x].  Instances have no [__eq__], so
    they are compared by identity. *)
Fixpoint list_remove (x : ref) (l : list ref) : option (list ref) :=
  match l with
  | [] => None
  | y :: l' =>
      if Nat.eqb y x then Some l'
      else match list_remove x l' with
           | Some r => Some (y :: r)
           | None => None
           end
  end.

(** ** The request of a handler

    [self.request.arguments]: the values of each field of the request, as
    tornado has parsed them from the query and the body.  A string stands
    for the text it decodes to, a character for a code point below 256. *)
Record HTTPServerRequest : Type := mkHTTPServerRequest {
  arguments : list (string * list string)
}.

(** [d.get(name, None)] *)
Fixpoint dict_get (name : string) (d : list (string * list string))
    : option (list string) :=
  match d with
  | [] => None
  | (k, v) :: d' => if String.eqb k name then Some v else dict_get name d'
  end.

(** [re.sub(r"[\x00-\x08\x0e-\x1f]", " ", x)] *)
Definition blank_control (c : ascii) : ascii :=
  let n := nat_of_ascii c in
  if ((n <=? 8) || ((14 <=? n) && (n <=? 31)))%nat then " "%char else c.

Fixpoint blank_controls (x : string) : string :=
  match x with
  | EmptyString => EmptyString
  | String c x' => String (blank_control c) (blank_controls x')
  end.

(** The characters [x.strip()] takes off a unicode string, below 256. *)
Definition is_space (c : ascii) : bool :=
  let n := nat_of_ascii c in
  (((9 <=? n) && (n <=? 13)) || ((28 <=? n) && (n <=? 32))
   || (n =? 133) || (n =? 160))%nat.

Fixpoint lstrip (x : string) : string :=
  match x with
  | EmptyString => EmptyString
  | String c x' => if is_space c then lstrip x' else x
  end.

Fixpoint rstrip (x : string) : string :=
  match x with
  | EmptyString => EmptyString
  | String c x' =>
      match rstrip x' with
      | EmptyString => if is_space c then EmptyString else String c EmptyString
      | r => String c r
      end
  end.

(** [x.strip()] *)
Definition strip (x : string) : string := rstrip (lstrip x).

(** [RequestHandler.get_arguments(name)], with its default [strip=True]:
    the values of the field, control characters blanked, decoded and
    stripped; none when the request has no such field. *)
Definition get_arguments (name : string) (request : HTTPServerRequest) : list string :=
  match dict_get name (arguments request) with
  | None => []
  | Some values => map (fun x => strip (blank_controls x)) values
  end.

(** [RequestHandler.get_argument(name)], without a default: the last value
    of the field, and an [HTTPError] of status 400 when there is none. *)
Definition get_argument (name : string) (request : HTTPServerRequest) : M string :=
  let values := get_arguments name request in
  match last values with
  | None => raise (HTTPError 400)
  | Some value => mret value
  end.

(** [AgentInputHandler.HASH] and [AgentInputHandler.PAYLOAD] *)
Definition HASH : string := "hash".
Definition PAYLOAD : string := "payload".

(** What the module imports and this file does not define:
    [md5(message).hexdigest()] (which raises on a unicode message, as
    [get_argument] returns it, that has a character beyond ASCII: [None]),
    [tornado.escape.json_decode] (which raises on a message that is not
    JSON: [None]), [emitter.format_body] (which may raise: [None]) and the
    configured [agentConfig['ddUrl']]. *)
Class Externals : Type := mkExternals {
  md5_hexdigest : string -> option string;
  json_decode : string -> option pyvalue;
  format_body : pyvalue -> option string;
  ddUrl : string
}.

Section Agent.

Context {ext : Externals}.

(** *** class Transaction *)

Definition alloc (o : Transaction) : M ref := fun s =>
  (Ok (length (heap s)), set_heap (heap s ++ [o]) s).

(** [Transaction.__init__(self, data)]; [now] is [datetime.now()]. *)
Definition Transaction_init (data : pyvalue) (now : datetime) : M ref :=
  c ← gets _counter;
  modify (set_counter (c + 1));;
  id ← gets _counter;
  self ← alloc {| _id := id; _data := data; _error_count := 0; _next_flush := now |};
  modify (fun s => set_transactions (_transactions s ++ [self]) s);;
  logging INFO (MsgCreated id);;
  mret self.

(** [get_data(self)].  The handler of the [try] evaluates the global name
    [logger]; were it bound, the method would log and return [None]. *)
Definition get_data (self : ref) : M (option string) :=
  o ← load self;
  match format_body (_data o) with
  | Some body => mret (Some body)
  | None =>
      global_name "logger";;
      logging ERROR MsgEmitterException;;
      mret None
  end.

(** [self._error_count = n] *)
Definition set_error_count (n : Z) (o : Transaction) : Transaction :=
  {| _id := _id o; _data := _data o; _error_count := n; _next_flush := _next_flush o |}.

(** [error(self)]; [now] is the [datetime.now()] of [compute_next_flush]. *)
Definition error (self : ref) (now : datetime) : M unit :=
  o ← load self;
  update self (set_error_count (_error_count o + 1));;
  update self (compute_next_flush now);;
  o ← load self;
  logging INFO (MsgInError (_id o) (_error_count o) (plural (_error_count o)) (_next_flush o)).

(** [finish(self)] *)
Definition finish (self : ref) : M unit :=
  o ← load self;
  logging INFO (MsgCompleted (_id o));;
  trs ← gets _transactions;
  match list_remove self trs with
  | Some trs' => modify (set_transactions trs')
  | None => raise ValueError
  end.

(** [http.fetch(req, callback)]: the request leaves, the callback waits. *)
Definition fetch (f : Fetch) : M unit :=
  modify (fun s => set_fetches (fetches s ++ [f]) (pending s ++ [f]) s).

(** [Transaction._flush_next(url)] *)
Definition _flush_next (url : string) : M unit :=
  cur ← gets _trs_to_flush;
  match cur with
  | None => raise TypeError
  | Some l =>
      if (0 <? length l)%nat then
        match pop l with
        | None => raise IndexError
        | Some (tr, l') =>
            modify (set_trs_to_flush (Some l'));;
            body ← get_data tr;
            let req := mkHTTPRequest url "POST" body in
            o ← load tr;
            logging INFO (MsgSending (_id o));;
            fetch (mkFetch req tr url)
        end
      else modify (set_trs_to_flush None)
  end.

(** [Transaction.on_response(tr, url, response)]; [response_error] is
    the truth value of [response.error]. *)
Definition on_response (tr : ref) (url : string) (response_error : bool)
    (now : datetime) : M unit :=
  (if response_error then error tr now else finish tr);;
  _flush_next url.

(** The loop of [flush] over [Transaction._transactions]. *)
Fixpoint select_due (now : datetime) (trs : list ref) (to_flush : list ref)
    : M (list ref) :=
  match trs with
  | [] => mret to_flush
  | tr :: rest =>
      o ← load tr;
      if time_to_flush o now then select_due now rest (to_flush ++ [tr])
      else select_due now rest to_flush
  end.

(** [Transaction.flush()]; [now] is its [datetime.now()]. *)
Definition flush (now : datetime) : M unit :=
  cur ← gets _trs_to_flush;
  match cur with
  | Some _ => logging INFO MsgFlushInProgress
  | None =>
      trs ← gets _transactions;
      to_flush ← select_due now trs [];
      let count := length to_flush in
      if (0 <? count)%nat then
        logging INFO (MsgFlushing count (plural (Z.of_nat count)));;
        let url := (ddUrl ++ "/intake/")%string in
        modify (set_trs_to_flush (Some to_flush));;
        _flush_next url
      else mret tt
  end.

(** *** class AgentInputHandler *)

(** [parse_message(message, msg_hash)] *)
Definition parse_message (message msg_hash : string) : M pyvalue :=
  match md5_hexdigest message with
  | None => raise UnicodeEncodeError
  | Some c_hash =>
      if negb (String.eqb c_hash msg_hash) then
        logging ERROR (MsgMalformed c_hash msg_hash);;
        mret PyNone
      else
        match json_decode message with
        | Some v => mret v
        | None => raise ValueError
        end
  end.

(** [post(self)]; [request] is [self.request], [now_init] and [now_flush]
    the clock as [Transaction(msg)] and then [Transaction.flush()] read
    it. *)
Definition post (request : HTTPServerRequest) (now_init now_flush : datetime)
    : M unit :=
  payload ← get_argument PAYLOAD request;
  hash ← get_argument HASH request;
  msg ← parse_message payload hash;
  match msg with
  | PyNone => raise (HTTPError 500)
  | _ =>
      Transaction_init msg now_init;;
      flush now_flush
  end.

(** *** The event loop

    The callbacks the single-threaded loop runs, each to its end: a request
    to the intake, a tick of the periodic flush, and the response to a
    fetch that waits ([i] is its place among those).  An exception that
    leaves a callback is logged by the loop; the state stays as the
    callback left it. *)
Inductive event : Type :=
  | EvPost (request : HTTPServerRequest) (now_init now_flush : datetime)
  | EvFlush (now : datetime)
  | EvResponse (i : nat) (response_error : bool) (now : datetime).

Definition handle (ev : event) : M unit :=
  match ev with
  | EvPost request now_init now_flush => post request now_init now_flush
  | EvFlush now => flush now
  | EvResponse i response_error now =>
      p ← gets pending;
      match p !! i with
      | None => mret tt
      | Some f =>
          modify (fun s => set_fetches (fetches s) (delete i p) s);;
          on_response (fetch_tr f) (fetch_url f) response_error now
      end
  end.

Definition step (ev : event) (s : State) : State := exec (handle ev) s.

Definition run (evs : list event) (s : State) : State :=
  fold_left (fun s ev => step ev s) evs s.

(** The status tornado answers a request with: 200 when the handler
    returns, the code of an [HTTPError], 500 for any other exception. *)
Definition status_of {A : Type} (o : outcome A) : Z :=
  match o with
  | Ok _ => 200
  | Raise (HTTPError status_code) => status_code
  | Raise _ => 500
  end.

Definition intake (request : HTTPServerRequest) (now_init now_flush : datetime)
    (s : State) : Z * State :=
  let r := post request now_init now_flush s in
  (status_of (fst r), snd r).

(** *** Predicates on states *)

(** [r] refers to an instance of the store. *)
Definition valid (s : State) (r : ref) : Prop := is_Some (heap s !! r).

(** The instance behind [r] passes the test of the loop of [flush]. *)
Definition due (now : datetime) (s : State) (r : ref) : bool :=
  match heap s !! r with
  | Some o => time_to_flush o now
  | None => false
  end.

(** The number of the instance behind [r]. *)
Definition id_of (s : State) (r : ref) : Z :=
  match heap s !! r with
  | Some o => _id o
  | None => 0
  end.

(** What [error] makes of an instance. *)
Definition failed (now : datetime) (o : Transaction) : Transaction :=
  compute_next_flush now (set_error_count (_error_count o + 1) o).

(** [msg is None] *)
Definition is_PyNone (v : pyvalue) : bool :=
  match v with PyNone => true | _ => false end.

(** At most one fetch waits for its response, and one waits only while
    the cursor is there. *)
Definition single_flight (s : State) : Prop :=
  (length (pending s) <= 1)%nat /\ (pending s <> [] -> is_Some (_trs_to_flush s)).

(** Everything but the log is the same. *)
Definition same_queue (s s' : State) : Prop :=
  heap s' = heap s /\ _transactions s' = _transactions s /\
  _counter s' = _counter s /\ _trs_to_flush s' = _trs_to_flush s /\
  fetches s' = fetches s /\ pending s' = pending s.

(** The cursor and the fetches are the same. *)
Definition same_flight (s s' : State) : Prop :=
  _trs_to_flush s' = _trs_to_flush s /\ fetches s' = fetches s /\
  pending s' = pending s.

(** The store, the queue and the counter are the same. *)
Definition same_store (s s' : State) : Prop :=
  heap s' = heap s /\ _transactions s' = _transactions s /\ _counter s' = _counter s.

(** The store has not shrunk, and a reference that has entered the queue
    is one the store did not hold. *)
Definition grows (s s' : State) : Prop :=
  (length (heap s) <= length (heap s'))%nat /\
  forall r, (r ∈ _transactions s') ->
    (r ∈ _transactions s) \/ (length (heap s) <= r)%nat.

(** Nothing waits for a response and the cursor is there. *)
Definition stalled (s : State) : Prop :=
  pending s = [] /\ is_Some (_trs_to_flush s).

(** The counter counts the instances, the instance at address [r] carries
    the number [r + 1], and the queue lists its references in the order
    they were allocated in. *)
Record wf (s : State) : Prop := mk_wf {
  wf_counter : _counter s = Z.of_nat (length (heap s));
  wf_ids : forall r o, heap s !! r = Some o -> _id o = Z.of_nat r + 1;
  wf_sorted : StronglySorted lt (_transactions s);
  wf_bound : Forall (fun r => (r < length (heap s))%nat) (_transactions s)
}.

(** The responses to the fetch that waits, one after the other. *)
Definition responses (rs : list (bool * datetime)) : list event :=
  map (fun r => EvResponse 0 (fst r) (snd r)) rs.

(** A transaction of the queue, with its instance in the store. *)
Definition queued (s : State) (r : ref) : Prop :=
  (r ∈ _transactions s) /\ valid s r.

(** A queued transaction whose payload [format_body] accepts. *)
Definition sendable (s : State) (r : ref) : Prop :=
  (r ∈ _transactions s) /\
  exists o, heap s !! r = Some o /\ is_Some (format_body (_data o)).

(** The references the cursor still holds, and those of the fetches that
    wait. *)
Definition cursor_list (s : State) : list ref :=
  match _trs_to_flush s with
  | Some l => l
  | None => []
  end.

Definition in_flight (s : State) : list ref := map fetch_tr (pending s).

(** What the flush chain keeps: no transaction is twice among those the
    cursor holds and the one in flight, and all of them are in the queue. *)
Record chain_ok (s : State) : Prop := mk_chain_ok {
  chain_wf : wf s;
  chain_single : single_flight s;
  chain_NoDup : NoDup (cursor_list s ++ in_flight s);
  chain_queued : Forall (fun r => r ∈ _transactions s) (cursor_list s ++ in_flight s)
}.

(** [tr] is out of the queue, of the cursor and of the fetches that wait. *)
Definition gone (tr : ref) (s : State) : Prop :=
  (tr < length (heap s))%nat /\ (tr ∉ _transactions s) /\
  (tr ∉ cursor_list s) /\ (tr ∉ in_flight s).

(** How many requests have left for [tr]. *)
Definition sent_count (tr : ref) (s : State) : nat :=
  length (List.filter (fun f => Nat.eqb (fetch_tr f) tr) (fetches s)).

(** A request as [_flush_next] builds it from [flush]: a POST to the
    intake of [ddUrl], its body what [format_body] makes of the payload of
    its transaction. *)
Definition sent_ok (s : State) (f : Fetch) : Prop :=
  fetch_url f = (ddUrl ++ "/intake/")%string /\
  exists o body, heap s !! fetch_tr f = Some o /\
    format_body (_data o) = Some body /\
    fetch_req f = mkHTTPRequest (ddUrl ++ "/intake/") "POST" (Some body).

Definition well_sent (s : State) : Prop :=
  Forall (sent_ok s) (fetches s) /\ Forall (sent_ok s) (pending s).

(** The instances of [s] are those of [s'], with the payload they had. *)
Definition data_stable (s s' : State) : Prop :=
  forall r o, heap s !! r = Some o ->
    exists o', heap s' !! r = Some o' /\ _data o' = _data o.



(** What [get_argument] returns for a field, if it returns. *)
Definition argument (name : string) (request : HTTPServerRequest) : option string :=
  last (get_arguments name request).

(** What [post] does once [get_argument] has returned [payload] and
    [hash]. *)
Definition post_with (payload hash : string) (now_init now_flush : datetime)
    : M unit :=
  msg ← parse_message payload hash;
  match msg with
  | PyNone => raise (HTTPError 500)
  | _ =>
      Transaction_init msg now_init;;
      flush now_flush
  end.

(** What [post] enqueues for two argument values, if anything: the decoded
    message when the hash is the digest of the payload and the payload
    decodes to something other than [None]. *)
Definition accepted_values (payload hash : string) : option pyvalue :=
  match md5_hexdigest payload with
  | Some c_hash =>
      if String.eqb c_hash hash then
        match json_decode payload with
        | Some v => if is_PyNone v then None else Some v
        | None => None
        end
      else None
  | None => None
  end.

(** What [post] enqueues for a request, if anything: what it enqueues for
    the values [get_argument] returns for its two fields, when it has
    both. *)
Definition accepted (request : HTTPServerRequest) : option pyvalue :=
  match argument PAYLOAD request, argument HASH request with
  | Some payload, Some hash => accepted_values payload hash
  | _, _ => None
  end.

End Agent.

(** ** A configuration to run the model on

    Stand-ins for the imported functions: a digest that tags the message
    and refuses a character beyond ASCII, a decoder that refuses the empty
    message, and a formatter that refuses the payload ["bad"]. *)
Definition sample_externals : Externals := {|
  md5_hexdigest := fun m =>
    if forallb (fun c => (nat_of_ascii c <? 128)%nat) (list_ascii_of_string m)
    then Some ("md5:" ++ m)%string else None;
  json_decode := fun m =>
    if String.eqb m "" then None
    else if String.eqb m "null" then Some PyNone
    else Some (PyStr m);
  format_body := fun v =>
    match v with
    | PyStr m => if String.eqb m "bad" then None else Some m
    | _ => Some ""%string
    end;
  ddUrl := "https://app.example.com"
|}.

(** A request with one value for each of the two fields. *)
Definition form (payload hash : string) : HTTPServerRequest :=
  mkHTTPServerRequest [("payload"%string, [payload]); ("hash"%string, [hash])].

(** Three messages taken in at time 0. *)
Definition queue3 : State :=
  run (ext := sample_externals)
    [EvPost (form "a" "md5:a") 0 0; EvPost (form "b" "md5:b") 0 0;
     EvPost (form "c" "md5:c") 0 0]
    initial.

(** A good message, then one the formatter refuses. *)
Definition queue_bad : State :=
  run (ext := sample_externals)
    [EvPost (form "a" "md5:a") 0 0; EvPost (form "bad" "md5:bad") 0 0] initial.

(** Two good messages, then one the formatter refuses. *)
Definition queue_ab_bad : State :=
  run (ext := sample_externals)
    [EvPost (form "a" "md5:a") 0 0; EvPost (form "b" "md5:b") 0 0;
     EvPost (form "bad" "md5:bad") 0 0] initial.

(** One message taken in at time 5 and sent by the flush of time 6. *)
Definition one_in_flight : State :=
  run (ext := sample_externals) [EvPost (form "x" "md5:x") 5 6] initial.

(** The queue of [queue_bad] with a cursor on both its transactions. *)
Definition flushing_bad : State := set_trs_to_flush (Some [0; 1]%nat) queue_bad.

(** The fetch that waits in [one_in_flight]. *)
Definition fetch_x : Fetch :=
  mkFetch (mkHTTPRequest "https://app.example.com/intake/" "POST" (Some "x"%string))
    0 "https://app.example.com/intake/".

(** The supervisor after its first [run_checks], when [Popen] has given the
    pid 42, and after that child has exited with status 0. *)
Definition spawned : Application * OS :=
  (snd (fst (run_checks "python" "ddagent.py" true (Some 42) Application_init
               (mkOS [] []))),
   snd (run_checks "python" "ddagent.py" true (Some 42) Application_init (mkOS [] []))).

Definition exited : Application * OS :=
  (fst spawned, child_exits 42 0 (snd spawned)).

(** The options tornado defines and those [main] defines, and two command
    lines. *)
Definition sample_options : list string :=
  ["help"; "logging"; "log_to_stderr"; "log_file_prefix"; "log_file_max_size";
   "log_file_num_backups"; "action"; "firstRun"; "port"; "log"]%string.

Definition sample_argv : list string :=
  ["ddagent.py"; "--port=17123"; "start"; "--config=/etc/dd.conf";
   "--portable"]%string.

Definition unrecognised_argv : list string :=
  ["ddagent.py"; "--port=17123"; "--config=/etc/dd.conf"]%string.

(** The name of the option an argument gives:
    [arg.lstrip("-").partition("=")[0].replace('-', '_')]. *)
Fixpoint lstrip_dashes (arg : string) : string :=
  match arg with
  | String "-" rest => lstrip_dashes rest
  | _ => arg
  end.

Fixpoint option_name (arg : string) : string :=
  match arg with
  | EmptyString => EmptyString
  | String "=" _ => EmptyString
  | String "-" rest => String "_" (option_name rest)
  | String c rest => String c (option_name rest)
  end.

(** A stand-in for tornado's [parse_command_line], as far as the names of
    the options go: it goes through the arguments after the first, stops
    at the first that does not begin with a dash, or at ["--"], and does
    not return when it meets an option whose name is not defined. *)
Fixpoint parse_names (option_names args : list string) : option (list string) :=
  match args with
  | [] => Some []
  | arg :: rest =>
      if negb (String.prefix "-" arg) then Some args
      else if String.eqb arg "--" then Some rest
      else if existsb (String.eqb (option_name (lstrip_dashes arg))) option_names
      then parse_names option_names rest
      else None
  end.

Definition sample_parse_command_line (argv : list string) : option (list string) :=
  parse_names sample_options (tail argv).

(** * Properties *)

Section AgentFacts.

Context {ext : Externals}.

(** ** Time and the retry delay *)

Example retry_delay_2 : retry_delay 2 = 40000000.
Proof. reflexivity. Qed.

Example retry_delay_7 : retry_delay 7 = 60000000.
Proof. reflexivity. Qed.

Lemma MICROS_pos : 0 < MICROS.
Proof. reflexivity. Qed.

Lemma microsecond_range (d : datetime) : 0 <= microsecond d < MICROS.
Proof. unfold microsecond. apply Z.mod_pos_bound, MICROS_pos. Qed.


Lemma retry_delay_min (f : Z) : retry_delay f = timedelta_seconds (Z.min (f * 20) 60).
Proof.
  unfold retry_delay, timedelta_seconds, MICROS.
  destruct (Z.ltb_spec (60 * 1000000) (f * 20 * 1000000)); lia.
Qed.

(** C3: for every non-negative failure count [f] the delay that
    [compute_next_flush] adds is [min (f * 20) 60] seconds, and it is zero
    for [f = 0]. *)
Theorem retry_delay_is_min (f : Z) :
  0 <= f ->
  retry_delay f = timedelta_seconds (Z.min (f * 20) 60) /\ retry_delay 0 = 0.
Proof.
  intros _. split; [apply retry_delay_min | reflexivity].
Qed.


(** ** What each operation does to the state *)

Ltac munfold :=
  cbv beta iota delta [mbind mret M_bind M_ret modify gets raise load logging
                       fetch update alloc exec result
                       set_heap set_transactions set_counter set_trs_to_flush
                       set_fetches set_log];
  cbn beta iota delta [heap _transactions _counter _trs_to_flush fetches
                       pending log fst snd].

Ltac sproj :=
  cbn [heap _transactions _counter _trs_to_flush fetches pending log
       set_heap set_transactions set_counter set_trs_to_flush set_fetches
       set_log fst snd].

Lemma logger_unbound : existsb (String.eqb "logger") module_globals = false.
Proof. reflexivity. Qed.

Lemma pop_snoc (l : list ref) (x : ref) : pop (l ++ [x]) = Some (x, l).
Proof. unfold pop. rewrite rev_app_distr. cbn. by rewrite rev_involutive. Qed.

Lemma pop_Some (l l' : list ref) (x : ref) : pop l = Some (x, l') -> l = l' ++ [x].
Proof.
  destruct l as [|y l0] using rev_ind; [discriminate|].
  rewrite pop_snoc. congruence.
Qed.

Lemma pop_None (l : list ref) : pop l = None -> l = [].
Proof.
  destruct l as [|y l0] using rev_ind; [reflexivity|].
  rewrite pop_snoc. discriminate.
Qed.

Lemma select_due_state now trs acc s : snd (select_due now trs acc s) = s.
Proof.
  revert acc. induction trs as [|tr rest IH]; intros acc; [reflexivity|].
  cbn [select_due]. munfold.
  destruct (heap s !! tr) as [o|]; [|reflexivity].
  destruct (time_to_flush o now); apply IH.
Qed.

Lemma select_due_filter now trs acc s :
  Forall (valid s) trs ->
  select_due now trs acc s = (Ok (acc ++ List.filter (due now s) trs), s).
Proof.
  revert acc. induction trs as [|tr rest IH]; intros acc Hv.
  - cbn. by rewrite app_nil_r.
  - inversion Hv as [|? ? [o Ho] Hrest]; subst.
    cbn [select_due List.filter]. munfold. unfold due at 1. rewrite Ho.
    destruct (time_to_flush o now).
    + rewrite IH by done. by rewrite <- app_assoc.
    + by apply IH.
Qed.

Lemma get_data_eq tr s :
  get_data tr s =
  match heap s !! tr with
  | None => (Raise DanglingReference, s)
  | Some o =>
      match format_body (_data o) with
      | Some body => (Ok (Some body), s)
      | None => (Raise (NameError "logger"), s)
      end
  end.
Proof.
  unfold get_data, global_name. rewrite logger_unbound. munfold.
  destruct (heap s !! tr) as [o|]; [|reflexivity].
  destruct (format_body (_data o)); reflexivity.
Qed.

Lemma flush_next_eq url s :
  _flush_next url s =
  match _trs_to_flush s with
  | None => (Raise TypeError, s)
  | Some l =>
      match pop l with
      | None => (Ok tt, set_trs_to_flush None s)
      | Some (tr, l') =>
          match heap s !! tr with
          | None => (Raise DanglingReference, set_trs_to_flush (Some l') s)
          | Some o =>
              match format_body (_data o) with
              | None => (Raise (NameError "logger"), set_trs_to_flush (Some l') s)
              | Some body =>
                  let f := mkFetch (mkHTTPRequest url "POST" (Some body)) tr url in
                  (Ok tt, mkState (heap s) (_transactions s) (_counter s) (Some l')
                            (fetches s ++ [f]) (pending s ++ [f])
                            (log s ++ [(INFO, MsgSending (_id o))]))
              end
          end
      end
  end.
Proof.
  unfold _flush_next. munfold.
  destruct (_trs_to_flush s) as [l|]; [|reflexivity].
  destruct l as [|x l0 _] using rev_ind; [reflexivity|].
  rewrite length_app. cbn [length].
  replace (0 <? length l0 + 1)%nat with true by (symmetry; apply Nat.ltb_lt; lia).
  rewrite pop_snoc, get_data_eq. munfold.
  destruct (heap s !! x) as [o|] eqn:Ho; [|reflexivity].
  destruct (format_body (_data o)); munfold; [rewrite Ho|]; reflexivity.
Qed.

Lemma alter_as_insert {A : Type} (f : A -> A) (l : list A) (i : nat) (x : A) :
  l !! i = Some x -> alter f i l = <[i := f x]> l.
Proof.
  intros Hx. apply list_eq. intros j.
  pose proof (lookup_lt_Some _ _ _ Hx) as Hlt.
  destruct (decide (i = j)) as [<-|Hne].
  - rewrite list_lookup_alter_eq, Hx, list_lookup_insert_eq by done. reflexivity.
  - by rewrite list_lookup_alter_ne, list_lookup_insert_ne.
Qed.

Lemma error_eq tr now s :
  error tr now s =
  match heap s !! tr with
  | None => (Raise DanglingReference, s)
  | Some o =>
      let o' := failed now o in
      (Ok tt, mkState (<[tr := o']> (heap s)) (_transactions s) (_counter s)
                (_trs_to_flush s) (fetches s) (pending s)
                (log s ++ [(INFO, MsgInError (_id o') (_error_count o')
                                    (plural (_error_count o')) (_next_flush o'))]))
  end.
Proof.
  unfold error. munfold.
  destruct (heap s !! tr) as [o|] eqn:Ho; [|reflexivity].
  rewrite list_alter_alter_eq, list_lookup_alter_eq, Ho.
  cbn [fmap option_fmap option_map]. munfold.
  by rewrite (alter_as_insert _ _ _ _ Ho).
Qed.

Lemma finish_eq tr s :
  finish tr s =
  match heap s !! tr with
  | None => (Raise DanglingReference, s)
  | Some o =>
      let s1 := set_log (log s ++ [(INFO, MsgCompleted (_id o))]) s in
      match list_remove tr (_transactions s) with
      | Some trs' => (Ok tt, set_transactions trs' s1)
      | None => (Raise ValueError, s1)
      end
  end.
Proof.
  unfold finish. munfold.
  destruct (heap s !! tr) as [o|]; [|reflexivity].
  destruct (list_remove tr (_transactions s)); reflexivity.
Qed.

Lemma Transaction_init_eq data now s :
  Transaction_init data now s =
  (Ok (length (heap s)),
   mkState (heap s ++ [mkTransaction (_counter s + 1) data 0 now])
     (_transactions s ++ [length (heap s)]) (_counter s + 1)
     (_trs_to_flush s) (fetches s) (pending s)
     (log s ++ [(INFO, MsgCreated (_counter s + 1))])).
Proof. reflexivity. Qed.

Lemma flush_eq now s :
  flush now s =
  match _trs_to_flush s with
  | Some _ => (Ok tt, set_log (log s ++ [(INFO, MsgFlushInProgress)]) s)
  | None =>
      match fst (select_due now (_transactions s) [] s) with
      | Raise e => (Raise e, s)
      | Ok to_flush =>
          if (0 <? length to_flush)%nat then
            _flush_next (ddUrl ++ "/intake/")
              (set_trs_to_flush (Some to_flush)
                 (set_log (log s ++ [(INFO, MsgFlushing (length to_flush)
                                              (plural (Z.of_nat (length to_flush))))]) s))
          else (Ok tt, s)
      end
  end.
Proof.
  unfold flush. munfold.
  destruct (_trs_to_flush s) eqn:Hc; [by rewrite Hc|].
  pose proof (select_due_state now (_transactions s) [] s) as Hs.
  destruct (select_due now (_transactions s) [] s) as [[l|e] s']; cbn in Hs; subst s';
    cbn [fst]; [|reflexivity].
  destruct (0 <? length l)%nat; reflexivity.
Qed.

Lemma parse_message_eq message msg_hash s :
  parse_message message msg_hash s =
  match md5_hexdigest message with
  | None => (Raise UnicodeEncodeError, s)
  | Some c_hash =>
      if String.eqb c_hash msg_hash then
        match json_decode message with
        | Some v => (Ok v, s)
        | None => (Raise ValueError, s)
        end
      else (Ok PyNone,
            set_log (log s ++ [(ERROR, MsgMalformed c_hash msg_hash)]) s)
  end.
Proof.
  unfold parse_message. destruct (md5_hexdigest message) as [c_hash|]; [|reflexivity].
  destruct (String.eqb c_hash msg_hash); cbn [negb]; [|reflexivity].
  destruct (json_decode message); reflexivity.
Qed.

Lemma post_with_eq payload hash now_init now_flush s :
  post_with payload hash now_init now_flush s =
  match parse_message payload hash s with
  | (Raise e, s1) => (Raise e, s1)
  | (Ok msg, s1) =>
      if is_PyNone msg then (Raise (HTTPError 500), s1)
      else flush now_flush (snd (Transaction_init msg now_init s1))
  end.
Proof.
  unfold post_with. munfold.
  destruct (parse_message payload hash s) as [[v|e] s1]; [|reflexivity].
  destruct v; reflexivity.
Qed.

(** [post] reads the payload, then the hash, and goes on with the two
    values; a field [get_argument] does not find ends it with
    [HTTPError(400)], the state untouched. *)
Lemma post_args request now_init now_flush s :
  post request now_init now_flush s =
  match argument PAYLOAD request with
  | None => (Raise (HTTPError 400), s)
  | Some payload =>
      match argument HASH request with
      | None => (Raise (HTTPError 400), s)
      | Some hash => post_with payload hash now_init now_flush s
      end
  end.
Proof.
  unfold post, post_with, get_argument, argument. munfold.
  destruct (last (get_arguments PAYLOAD request)); [|reflexivity].
  destruct (last (get_arguments HASH request)); reflexivity.
Qed.

Lemma post_inv (P : State -> Prop) request now_init now_flush s :
  P s ->
  (forall payload hash, P (snd (post_with payload hash now_init now_flush s))) ->
  P (snd (post request now_init now_flush s)).
Proof.
  intros Hs Hw. rewrite post_args.
  destruct (argument PAYLOAD request); [|exact Hs].
  destruct (argument HASH request); [apply Hw|exact Hs].
Qed.

Lemma argument_form name payload hash :
  argument name (form payload hash) =
  if String.eqb "payload" name then Some (strip (blank_controls payload))
  else if String.eqb "hash" name then Some (strip (blank_controls hash))
  else None.
Proof.
  unfold argument, get_arguments, form. cbn [arguments dict_get].
  destruct (String.eqb "payload" name); [reflexivity|].
  destruct (String.eqb "hash" name); reflexivity.
Qed.

Lemma on_response_eq tr url response_error now s :
  on_response tr url response_error now s =
  match (if response_error then error tr now else finish tr) s with
  | (Ok _, s') => _flush_next url s'
  | (Raise e, s') => (Raise e, s')
  end.
Proof. reflexivity. Qed.

Lemma handle_response_eq i response_error now s :
  handle (EvResponse i response_error now) s =
  match pending s !! i with
  | None => (Ok tt, s)
  | Some f =>
      on_response (fetch_tr f) (fetch_url f) response_error now
        (set_fetches (fetches s) (delete i (pending s)) s)
  end.
Proof.
  unfold handle. munfold. destruct (pending s !! i); reflexivity.
Qed.

(** Splits a goal about [post req _ _ s]: the request has both fields, and
    the goal is about [post_with], or lacks one. *)
Ltac post_split req p h :=
  rewrite post_args;
  destruct (argument PAYLOAD req) as [p|];
  [destruct (argument HASH req) as [h|]|];
  [rewrite post_with_eq|try (cbn; congruence); try done..].

(** ** Single flight *)

Lemma flush_in_progress now s :
  is_Some (_trs_to_flush s) ->
  flush now s = (Ok tt, set_log (log s ++ [(INFO, MsgFlushInProgress)]) s).
Proof. intros [l Hl]. rewrite flush_eq, Hl. reflexivity. Qed.

Lemma error_same_flight tr now s : same_flight s (snd (error tr now s)).
Proof. rewrite error_eq. by destruct (heap s !! tr). Qed.

Lemma finish_same_flight tr s : same_flight s (snd (finish tr s)).
Proof.
  rewrite finish_eq. destruct (heap s !! tr); [|done]. cbn zeta.
  by destruct (list_remove tr (_transactions s)).
Qed.

Lemma parse_message_same_queue message msg_hash s :
  same_queue s (snd (parse_message message msg_hash s)).
Proof.
  rewrite parse_message_eq. destruct (md5_hexdigest message); [|done].
  destruct (String.eqb _ _); [|done]. by destruct (json_decode message).
Qed.

Lemma flush_next_single_flight url s :
  pending s = [] -> single_flight (snd (_flush_next url s)).
Proof.
  intros Hp. rewrite flush_next_eq. unfold single_flight.
  repeat case_match; cbn; rewrite ?Hp; cbn; split; eauto; try lia; done.
Qed.

Lemma single_flight_idle s :
  single_flight s -> _trs_to_flush s = None -> pending s = [].
Proof.
  intros [_ H] Hc. destruct (pending s) as [|f p]; [done|].
  destruct H as [c Hsome]; [done|]. congruence.
Qed.

Lemma flush_single_flight now s :
  single_flight s -> single_flight (snd (flush now s)).
Proof.
  intros Hs. rewrite flush_eq.
  destruct (_trs_to_flush s) eqn:Hc; [exact Hs|].
  pose proof (single_flight_idle _ Hs Hc) as Hp.
  destruct (fst (select_due now (_transactions s) [] s)); [|done].
  destruct (0 <? _)%nat; [|done].
  by apply flush_next_single_flight.
Qed.

Lemma post_with_single_flight payload hash now_init now_flush s :
  single_flight s -> single_flight (snd (post_with payload hash now_init now_flush s)).
Proof.
  intros Hs. rewrite post_with_eq.
  pose proof (parse_message_same_queue payload hash s) as Hq.
  destruct (parse_message payload hash s) as [[v|e] s1]; cbn [snd] in Hq;
    destruct Hq as (_ & _ & _ & Hc & _ & Hp).
  2:{ unfold single_flight. cbn. by rewrite Hc, Hp. }
  assert (Hs1 : single_flight s1).
  { unfold single_flight. by rewrite Hc, Hp. }
  destruct (is_PyNone v); [exact Hs1|].
  rewrite Transaction_init_eq. apply flush_single_flight. exact Hs1.
Qed.

Lemma post_single_flight request now_init now_flush s :
  single_flight s -> single_flight (snd (post request now_init now_flush s)).
Proof.
  intros Hs. apply post_inv; [exact Hs|].
  intros payload hash. by apply post_with_single_flight.
Qed.

Lemma pending_single s i f :
  single_flight s -> pending s !! i = Some f ->
  pending s = [f] /\ i = 0%nat.
Proof.
  intros [Hlen _] Hi. destruct (pending s) as [|f0 [|f1 p]]; cbn in *; try lia.
  - done.
  - destruct i; cbn in Hi; [by simplify_eq|done].
Qed.

Lemma on_response_single_flight tr url response_error now s :
  pending s = [] ->
  single_flight (snd (on_response tr url response_error now s)).
Proof.
  intros Hp. rewrite on_response_eq.
  assert (Hf : same_flight s (snd ((if response_error then error tr now else finish tr) s))).
  { destruct response_error; [apply error_same_flight | apply finish_same_flight]. }
  destruct ((if response_error then error tr now else finish tr) s) as [[[]|e] s1];
    cbn [snd] in Hf; destruct Hf as (Hc & _ & Hp1); rewrite Hp in Hp1.
  - by apply flush_next_single_flight.
  - unfold single_flight. cbn. rewrite Hp1. split; [cbn; lia|done].
Qed.

(** Every callback of the loop keeps [single_flight]. *)
Lemma step_single_flight ev s : single_flight s -> single_flight (step ev s).
Proof.
  intros Hs. unfold step, exec. destruct ev as [req n1 n2|now|i e now].
  - by apply post_single_flight.
  - by apply flush_single_flight.
  - rewrite handle_response_eq. destruct (pending s !! i) as [f|] eqn:Hi; [|done].
    destruct (pending_single _ _ _ Hs Hi) as [Hp ->].
    apply on_response_single_flight. cbn. by rewrite Hp.
Qed.

Lemma run_single_flight evs s : single_flight s -> single_flight (run evs s).
Proof.
  revert s. induction evs as [|ev evs IH]; intros s Hs; [done|].
  cbn. apply IH. by apply step_single_flight.
Qed.

Lemma initial_single_flight : single_flight initial.
Proof. split; cbn; [lia|done]. Qed.

(** The cursor is reset by [_flush_next] alone, on an empty list. *)
Lemma flush_next_reset url s l :
  _trs_to_flush s = Some l -> _trs_to_flush (snd (_flush_next url s)) = None ->
  l = [].
Proof.
  intros Hc. rewrite flush_next_eq, Hc.
  destruct (pop l) as [[tr l']|] eqn:Hpop; [|intros _; by apply pop_None].
  repeat case_match; cbn; done.
Qed.

Lemma step_reset ev s l :
  _trs_to_flush s = Some l -> _trs_to_flush (step ev s) = None -> l = [].
Proof.
  intros Hc. unfold step, exec. destruct ev as [req n1 n2|now|i e now].
  - change (handle (EvPost req n1 n2)) with (post req n1 n2). post_split req p h.
    pose proof (parse_message_same_queue p h s) as Hq.
    destruct (parse_message p h s) as [[v|e] s1]; cbn [snd] in Hq;
      destruct Hq as (_ & _ & _ & Hc1 & _).
    2:{ cbn. congruence. }
    destruct (is_PyNone v); [cbn; congruence|].
    rewrite Transaction_init_eq, flush_in_progress by (cbn; rewrite Hc1, Hc; eauto).
    cbn. congruence.
  - change (handle (EvFlush now)) with (flush now).
    rewrite flush_in_progress by (rewrite Hc; eauto). cbn. congruence.
  - rewrite handle_response_eq. destruct (pending s !! i) as [f|]; [|cbn; congruence].
    rewrite on_response_eq.
    set (s0 := set_fetches _ _ s).
    assert (Hf : same_flight s0 (snd ((if e then error (fetch_tr f) now else finish (fetch_tr f)) s0))).
    { destruct e; [apply error_same_flight | apply finish_same_flight]. }
    destruct ((if e then error (fetch_tr f) now else finish (fetch_tr f)) s0) as [[[]|x] s1];
      cbn [snd] in Hf; destruct Hf as (Hc1 & _ & _).
    + apply flush_next_reset. by rewrite Hc1.
    + cbn. rewrite Hc1. cbn. congruence.
Qed.

(** C1: a flush asked for while the cursor is there returns at once and
    changes neither the store, the queue, the counter, the cursor nor the
    fetches; whatever the callbacks of the loop and their order, at most
    one fetch waits for its response, and one waits only while the cursor
    is there; and a callback takes the cursor away only when its list is
    empty. *)
Theorem flush_single_flight_guarantee :
  (forall now s, is_Some (_trs_to_flush s) ->
     fst (flush now s) = Ok tt /\ same_queue s (snd (flush now s))) /\
  (forall evs, (length (pending (run evs initial)) <= 1)%nat /\
     (pending (run evs initial) <> [] -> is_Some (_trs_to_flush (run evs initial)))) /\
  (forall ev s l, _trs_to_flush s = Some l -> _trs_to_flush (step ev s) = None ->
     l = []).
Proof.
  split; [|split].
  - intros now s Hc. rewrite flush_in_progress by done. done.
  - intros evs. apply (run_single_flight evs initial initial_single_flight).
  - apply step_reset.
Qed.

(** ** The queue and the store *)

Lemma list_remove_In (x : nat) (l : list nat) :
  x ∈ l -> is_Some (list_remove x l).
Proof.
  induction l as [|y l IH]; intros Hx; [by apply elem_of_nil in Hx|].
  cbn. destruct (Nat.eqb_spec y x) as [->|Hne]; [eauto|].
  apply elem_of_cons in Hx as [->|Hx]; [done|].
  destruct (IH Hx) as [r ->]. eauto.
Qed.

Lemma list_remove_elem (x y : nat) (l l' : list nat) :
  list_remove x l = Some l' ->
  ((y ∈ l') -> (y ∈ l)) /\ ((y ∈ l) -> y <> x -> (y ∈ l')).
Proof.
  revert l'. induction l as [|z l IH]; intros l' Hr; [discriminate|].
  cbn in Hr. destruct (Nat.eqb_spec z x) as [->|Hne].
  - simplify_eq. split; [by constructor|].
    intros Hy Hyx. by apply elem_of_cons in Hy as [->|Hy].
  - destruct (list_remove x l) as [r|] eqn:Hrl; [|discriminate]. simplify_eq.
    destruct (IH r eq_refl) as [IH1 IH2]. rewrite !elem_of_cons.
    split; [intros [?|?]; auto|intros [?|?] ?; auto].
Qed.

Lemma list_remove_NoDup (x : nat) (l l' : list nat) :
  NoDup l -> list_remove x l = Some l' -> (x ∉ l') /\ NoDup l'.
Proof.
  revert l'. induction l as [|z l IH]; intros l' Hnd Hr; [discriminate|].
  apply NoDup_cons in Hnd as [Hz Hnd].
  cbn in Hr. destruct (Nat.eqb_spec z x) as [->|Hne].
  - by simplify_eq.
  - destruct (list_remove x l) as [r|] eqn:Hrl; [|discriminate]. simplify_eq.
    destruct (IH r Hnd eq_refl) as [IH1 IH2].
    pose proof (list_remove_elem x z l r Hrl) as [Hin _].
    split; [rewrite not_elem_of_cons; auto|].
    apply NoDup_cons. split; [|done]. intros Hzr. apply Hz, Hin, Hzr.
Qed.

Lemma list_remove_sorted (x : nat) (l l' : list nat) :
  StronglySorted lt l -> list_remove x l = Some l' -> StronglySorted lt l'.
Proof.
  revert l'. induction l as [|z l IH]; intros l' Hs Hr; [discriminate|].
  apply StronglySorted_inv in Hs as [Hs Hz].
  cbn in Hr. destruct (Nat.eqb_spec z x) as [->|Hne]; [by simplify_eq|].
  destruct (list_remove x l) as [r|] eqn:Hrl; [|discriminate]. simplify_eq.
  constructor; [by apply IH|].
  rewrite Forall_forall in Hz |- *. intros y Hy. apply Hz.
  by apply (list_remove_elem x y l r Hrl).
Qed.

Lemma filter_sorted {A : Type} (R : A -> A -> Prop) (f : A -> bool) (l : list A) :
  StronglySorted R l -> StronglySorted R (List.filter f l).
Proof.
  induction 1 as [|x l Hs IH Hx]; cbn; [constructor|].
  destruct (f x); [|done]. constructor; [done|].
  rewrite Forall_forall in Hx |- *. intros y Hy.
  apply Hx. apply list_elem_of_In in Hy. apply filter_In in Hy as [Hy _].
  by apply list_elem_of_In.
Qed.

Lemma flush_next_same_store url s : same_store s (snd (_flush_next url s)).
Proof. rewrite flush_next_eq. repeat case_match; done. Qed.

Lemma flush_same_store now s : same_store s (snd (flush now s)).
Proof.
  rewrite flush_eq. repeat case_match; try done.
  apply (flush_next_same_store _ (set_trs_to_flush _ (set_log _ s))).
Qed.

Lemma grows_refl s : grows s s.
Proof. split; [lia|auto]. Qed.

Lemma grows_trans s1 s2 s3 : grows s1 s2 -> grows s2 s3 -> grows s1 s3.
Proof.
  intros [H1 H2] [H3 H4]. split; [lia|].
  intros r Hr. destruct (H4 r Hr) as [Hr2|Hr2]; [|right; lia].
  destruct (H2 r Hr2); auto.
Qed.

Lemma same_store_grows s s' : same_store s s' -> grows s s'.
Proof. intros (Hh & Ht & _). unfold grows. rewrite Hh, Ht. apply grows_refl. Qed.

Lemma error_grows tr now s : grows s (snd (error tr now s)).
Proof.
  rewrite error_eq. destruct (heap s !! tr); [|apply grows_refl].
  split; cbn; [rewrite length_insert; lia|auto].
Qed.

Lemma finish_grows tr s : grows s (snd (finish tr s)).
Proof.
  rewrite finish_eq. destruct (heap s !! tr); [|apply grows_refl]. cbn zeta.
  destruct (list_remove tr (_transactions s)) as [l'|] eqn:Hl; [|split; cbn; auto].
  split; cbn; [lia|]. intros r Hr. left.
  by apply (list_remove_elem tr r _ _ Hl).
Qed.

Lemma on_response_grows tr url e now s : grows s (snd (on_response tr url e now s)).
Proof.
  rewrite on_response_eq.
  assert (Hg : grows s (snd ((if e then error tr now else finish tr) s))).
  { destruct e; [apply error_grows | apply finish_grows]. }
  destruct ((if e then error tr now else finish tr) s) as [[[]|x] s1]; [|done].
  eapply grows_trans; [exact Hg|]. apply same_store_grows, flush_next_same_store.
Qed.

Lemma post_with_grows payload hash now_init now_flush s :
  grows s (snd (post_with payload hash now_init now_flush s)).
Proof.
  rewrite post_with_eq.
  pose proof (parse_message_same_queue payload hash s) as Hq.
  destruct (parse_message payload hash s) as [[v|e] s1]; cbn [snd] in Hq;
    destruct Hq as (Hh & Ht & Hc & _).
  2:{ apply same_store_grows. done. }
  destruct (is_PyNone v); [by apply same_store_grows|].
  eapply grows_trans; [|apply same_store_grows, flush_same_store].
  rewrite Transaction_init_eq. split; cbn; rewrite ?length_app, Hh; [lia|].
  intros r Hr. rewrite Ht in Hr. apply elem_of_app in Hr as [Hr|Hr]; [by left|].
  apply list_elem_of_singleton in Hr. right. lia.
Qed.

Lemma post_grows request now_init now_flush s :
  grows s (snd (post request now_init now_flush s)).
Proof.
  apply (post_inv (grows s)); [|intros payload hash; apply post_with_grows].
  apply grows_refl.
Qed.

Lemma step_grows ev s : grows s (step ev s).
Proof.
  unfold step, exec. destruct ev as [req n1 n2|now|i e now].
  - apply post_grows.
  - apply same_store_grows, flush_same_store.
  - rewrite handle_response_eq. destruct (pending s !! i) as [f|]; [|apply grows_refl].
    apply (on_response_grows _ _ _ _ (set_fetches _ _ s)).
Qed.

Lemma run_grows evs s : grows s (run evs s).
Proof.
  revert s. induction evs as [|ev evs IH]; intros s; [apply grows_refl|].
  cbn. eapply grows_trans; [apply step_grows|apply IH].
Qed.

(** ** The outcome of a delivery *)

Lemma on_response_success tr url now s o :
  heap s !! tr = Some o -> tr ∈ _transactions s ->
  exists trs', list_remove tr (_transactions s) = Some trs' /\
    heap (snd (on_response tr url false now s)) = heap s /\
    _transactions (snd (on_response tr url false now s)) = trs'.
Proof.
  intros Ho Hin. destruct (list_remove_In _ _ Hin) as [trs' Hr].
  exists trs'. split; [done|].
  rewrite on_response_eq, finish_eq, Ho. cbn zeta. rewrite Hr.
  cbv beta iota. destruct (flush_next_same_store url
              (set_transactions trs'
                 (set_log (log s ++ [(INFO, MsgCompleted (_id o))]) s)))
    as (Hh & Ht & _).
  by rewrite Hh, Ht.
Qed.

Lemma on_response_failure tr url now s o :
  heap s !! tr = Some o ->
  heap (snd (on_response tr url true now s)) = <[tr := failed now o]> (heap s) /\
  _transactions (snd (on_response tr url true now s)) = _transactions s.
Proof.
  intros Ho. rewrite on_response_eq, error_eq, Ho. cbv beta iota zeta.
  match goal with |- context [_flush_next url ?s1] =>
    destruct (flush_next_same_store url s1) as (Hh & Ht & _) end.
  by rewrite Hh, Ht.
Qed.

Lemma gone_for_good evs s tr :
  (tr < length (heap s))%nat -> tr ∉ _transactions s -> tr ∉ _transactions (run evs s).
Proof.
  intros Hlt Hnin Hin. destruct (run_grows evs s) as [_ Hg].
  destruct (Hg tr Hin); [done|lia].
Qed.

(** C2, as the code has it: when the response to the delivery of a queued
    transaction reports no error, the transaction leaves the queue and no
    later callback puts it back; when it reports an error, the queue is what
    it was, the transaction still in it, its [_error_count] one more and its
    [_next_flush] the time [now], plus the delay of the new count, with the
    microseconds set to zero. *)
Theorem delivery_outcome (s : State) (tr : nat) (o : Transaction) (url : string)
    (now : datetime) :
  NoDup (_transactions s) ->
  tr ∈ _transactions s ->
  heap s !! tr = Some o ->
  (let s' := snd (on_response tr url false now s) in
   (tr ∉ _transactions s') /\
   forall evs, tr ∉ _transactions (run evs s')) /\
  (let s' := snd (on_response tr url true now s) in
   _transactions s' = _transactions s /\
   (tr ∈ _transactions s') /\
   exists o', heap s' !! tr = Some o' /\
     _id o' = _id o /\ _data o' = _data o /\
     _error_count o' = _error_count o + 1 /\
     _next_flush o' =
       replace_microsecond_0 (now + retry_delay (_error_count o'))).
Proof.
  intros Hnd Hin Ho. pose proof (lookup_lt_Some _ _ _ Ho) as Hlt. split.
  - destruct (on_response_success tr url now s o Ho Hin) as (trs' & Hr & Hh & Ht).
    cbn zeta. destruct (list_remove_NoDup _ _ _ Hnd Hr) as [Hnin _].
    assert (Hgone : tr ∉ _transactions (snd (on_response tr url false now s)))
      by (by rewrite Ht).
    split; [done|]. intros evs. apply gone_for_good; [by rewrite Hh|done].
  - destruct (on_response_failure tr url now s o Ho) as (Hh & Ht).
    cbn zeta. rewrite Hh, Ht. split; [done|]. split; [done|].
    exists (failed now o). split; [by apply list_lookup_insert_eq|]. done.
Qed.

(** ** Which transactions a flush takes *)

Lemma due_spec now s r :
  due now s r = true <-> exists o, heap s !! r = Some o /\ _next_flush o < now.
Proof.
  unfold due, time_to_flush. destruct (heap s !! r) as [o|].
  - rewrite Z.ltb_lt. split; [eauto|]. by intros (o' & [= <-] & Hlt).
  - split; [done|]. by intros (o' & [=] & _).
Qed.

(** C4, as the code has it: the loop of [flush] takes exactly the queued
    transactions whose [_next_flush] is strictly before [now]; one whose
    [_next_flush] is [now] or later is not taken. *)
Theorem select_due_strict (now : datetime) (s : State) :
  Forall (valid s) (_transactions s) ->
  exists to_flush,
    select_due now (_transactions s) [] s = (Ok to_flush, s) /\
    forall r, r ∈ to_flush <->
      (r ∈ _transactions s) /\ exists o, heap s !! r = Some o /\ _next_flush o < now.
Proof.
  intros Hv. exists (List.filter (due now s) (_transactions s)).
  split; [by rewrite select_due_filter|].
  intros r. rewrite !list_elem_of_In, filter_In, due_spec. tauto.
Qed.

(** ** The intake *)



(** ** A payload the formatter refuses *)

Lemma step_stalled ev s :
  stalled s -> stalled (step ev s) /\ fetches (step ev s) = fetches s.
Proof.
  intros [Hp Hc]. unfold step, exec. destruct ev as [req n1 n2|now|i e now].
  - change (handle (EvPost req n1 n2)) with (post req n1 n2). post_split req p h.
    pose proof (parse_message_same_queue p h s) as Hq.
    destruct (parse_message p h s) as [[v|e] s1]; cbn [snd] in Hq;
      destruct Hq as (_ & _ & _ & Hc1 & Hf1 & Hp1).
    2:{ unfold stalled. cbn. by rewrite Hc1, Hf1, Hp1. }
    destruct (is_PyNone v); [unfold stalled; cbn; by rewrite Hc1, Hf1, Hp1|].
    rewrite Transaction_init_eq, flush_in_progress by (cbn; by rewrite Hc1).
    unfold stalled. cbn. by rewrite Hc1, Hf1, Hp1.
  - change (handle (EvFlush now)) with (flush now).
    by rewrite flush_in_progress.
  - rewrite handle_response_eq, Hp. done.
Qed.

Lemma run_stalled evs s :
  stalled s -> stalled (run evs s) /\ fetches (run evs s) = fetches s.
Proof.
  revert s. induction evs as [|ev evs IH]; intros s Hs; [done|].
  change (run (ev :: evs) s) with (run evs (step ev s)).
  destruct (step_stalled ev s Hs) as [Hs1 Hf1].
  destruct (IH _ Hs1) as [Hs2 Hf2]. split; [done|congruence].
Qed.

(** C9 fails on the code: when [format_body] raises on the payload of the
    transaction [_flush_next] has popped, the handler of [get_data] raises
    [NameError] on the unbound name [logger].  Nothing is logged, the
    transaction is not marked as failed, no request leaves, and the cursor
    stays with the rest of its list; as nothing waits for a response, no
    later callback sends anything or takes the cursor away. *)
Theorem formatter_failure_stalls (s : State) (l : list nat) (tr : nat)
    (o : Transaction) (url : string) :
  _trs_to_flush s = Some (l ++ [tr]) ->
  pending s = [] ->
  heap s !! tr = Some o ->
  format_body (_data o) = None ->
  let s' := snd (_flush_next url s) in
  fst (_flush_next url s) = Raise (NameError "logger") /\
  log s' = log s /\ heap s' = heap s /\ _transactions s' = _transactions s /\
  fetches s' = fetches s /\ _trs_to_flush s' = Some l /\
  forall evs, fetches (run evs s') = fetches s /\
              is_Some (_trs_to_flush (run evs s')).
Proof.
  intros Hc Hp Ho Hf. cbn zeta. rewrite flush_next_eq, Hc, pop_snoc, Ho, Hf.
  cbn [fst snd]. repeat (split; [done|]). intros evs.
  destruct (run_stalled evs (set_trs_to_flush (Some l) s)) as [[_ Hs] Hfe].
  - split; cbn; eauto.
  - by rewrite Hfe.
Qed.

(** ** Creation order *)

Lemma wf_initial : wf initial.
Proof.
  split; cbn; [done| |constructor|constructor].
  intros r o Hr. by rewrite lookup_nil in Hr.
Qed.

Lemma wf_same_store s s' : same_store s s' -> wf s -> wf s'.
Proof.
  intros (Hh & Ht & Hc) [H1 H2 H3 H4]. split; rewrite ?Hh, ?Ht, ?Hc; done.
Qed.

Lemma wf_valid s : wf s -> Forall (valid s) (_transactions s).
Proof.
  intros [_ _ _ Hb]. eapply Forall_impl; [exact Hb|].
  intros r Hr. by apply lookup_lt_is_Some.
Qed.

Lemma wf_NoDup s : wf s -> NoDup (_transactions s).
Proof.
  intros [_ _ Hs _]. induction Hs as [|x l Hs IH Hx]; [constructor|].
  apply NoDup_cons. split; [|done]. intros Hin.
  rewrite Forall_forall in Hx. specialize (Hx x Hin). lia.
Qed.

Lemma error_wf tr now s : wf s -> wf (snd (error tr now s)).
Proof.
  intros [H1 H2 H3 H4]. rewrite error_eq.
  destruct (heap s !! tr) as [o|] eqn:Ho; [|done].
  split; cbn; rewrite ?length_insert; try done.
  intros r o' Hr. destruct (decide (tr = r)) as [<-|Hne].
  - rewrite list_lookup_insert_eq in Hr by (by eapply lookup_lt_Some).
    simplify_eq. cbn. by apply H2.
  - rewrite list_lookup_insert_ne in Hr by done. by apply H2.
Qed.

Lemma finish_wf tr s : wf s -> wf (snd (finish tr s)).
Proof.
  intros [H1 H2 H3 H4]. rewrite finish_eq.
  destruct (heap s !! tr) as [o|] eqn:Ho; [|done]. cbn zeta.
  destruct (list_remove tr (_transactions s)) as [l'|] eqn:Hl; [|done].
  split; cbn; try done.
  - by eapply list_remove_sorted.
  - rewrite Forall_forall in H4 |- *. intros r Hr. apply H4.
    by apply (list_remove_elem tr r _ _ Hl).
Qed.

Lemma Transaction_init_wf data now s : wf s -> wf (snd (Transaction_init data now s)).
Proof.
  intros [H1 H2 H3 H4]. rewrite Transaction_init_eq.
  split; cbn; rewrite ?length_app; cbn [length].
  - lia.
  - intros r o Hr. apply lookup_app_Some in Hr as [Hr|[Hge Hr]]; [by apply H2|].
    apply list_lookup_singleton_Some in Hr as [Hr <-]. cbn. lia.
  - apply StronglySorted_app. split; [|split; [done|repeat constructor]].
    intros x y Hx Hy. apply list_elem_of_singleton in Hy as ->.
    rewrite Forall_forall in H4. by apply H4.
  - apply Forall_app. split; [|repeat constructor; lia].
    eapply Forall_impl; [exact H4|]. cbn. intros; lia.
Qed.

Lemma on_response_wf tr url e now s : wf s -> wf (snd (on_response tr url e now s)).
Proof.
  intros Hwf. rewrite on_response_eq.
  assert (Hw : wf (snd ((if e then error tr now else finish tr) s))).
  { destruct e; [by apply error_wf | by apply finish_wf]. }
  destruct ((if e then error tr now else finish tr) s) as [[[]|x] s1]; [|done].
  eapply wf_same_store; [apply flush_next_same_store|done].
Qed.

Lemma post_with_wf payload hash now_init now_flush s :
  wf s -> wf (snd (post_with payload hash now_init now_flush s)).
Proof.
  intros Hwf. rewrite post_with_eq.
  pose proof (parse_message_same_queue payload hash s) as Hq.
  destruct (parse_message payload hash s) as [[v|e] s1]; cbn [snd] in Hq;
    destruct Hq as (Hh & Ht & Hc & _);
    assert (Hw1 : wf s1) by (by apply (wf_same_store s)).
  2:{ done. }
  destruct (is_PyNone v); [done|].
  eapply wf_same_store; [apply flush_same_store|]. by apply Transaction_init_wf.
Qed.

Lemma post_wf request now_init now_flush s :
  wf s -> wf (snd (post request now_init now_flush s)).
Proof.
  intros Hs. apply post_inv; [exact Hs|].
  intros payload hash. by apply post_with_wf.
Qed.

Lemma step_wf ev s : wf s -> wf (step ev s).
Proof.
  intros Hwf. unfold step, exec. destruct ev as [req n1 n2|now|i e now].
  - by apply post_wf.
  - eapply wf_same_store; [apply (flush_same_store now)|done].
  - rewrite handle_response_eq. destruct (pending s !! i) as [f|]; [|done].
    apply on_response_wf. by apply (wf_same_store s).
Qed.

Lemma run_wf evs s : wf s -> wf (run evs s).
Proof.
  revert s. induction evs as [|ev evs IH]; intros s Hs; [done|].
  change (run (ev :: evs) s) with (run evs (step ev s)). by apply IH, step_wf.
Qed.

Lemma filter_sublist {A : Type} (f : A -> bool) (l : list A) :
  List.filter f l `sublist_of` l.
Proof.
  induction l as [|x l IH]; cbn; [constructor|].
  destruct (f x); by constructor.
Qed.

Lemma wf_ids_sorted s l :
  wf s -> StronglySorted lt l -> Forall (valid s) l ->
  StronglySorted Z.lt (map (id_of s) l).
Proof.
  intros Hwf Hs Hv. induction Hs as [|x l Hs IH Hx]; cbn; [constructor|].
  apply Forall_cons in Hv as [[ox Hox] Hv].
  constructor; [by apply IH|].
  rewrite Forall_forall. intros i Hi.
  apply list_elem_of_In, in_map_iff in Hi as (y & <- & Hy).
  apply list_elem_of_In in Hy.
  rewrite Forall_forall in Hx, Hv. specialize (Hx y Hy). destruct (Hv y Hy) as [oy Hoy].
  unfold id_of. rewrite Hox, Hoy.
  rewrite (wf_ids s Hwf _ _ Hox), (wf_ids s Hwf _ _ Hoy). lia.
Qed.

(** C6, as the code has it: in every state the loop reaches, the list the
    loop of [flush] builds is the queue without the transactions that are
    not due, in the order of the queue, which is insertion order: the
    numbers of its transactions increase strictly along it, so its first
    element is the oldest due transaction and its last the newest. *)
Theorem select_due_insertion_order (evs : list event) (now : datetime) :
  let s := run evs initial in
  exists to_flush,
    select_due now (_transactions s) [] s = (Ok to_flush, s) /\
    to_flush = List.filter (due now s) (_transactions s) /\
    to_flush `sublist_of` _transactions s /\
    StronglySorted Z.lt (map (id_of s) to_flush).
Proof.
  cbn zeta. set (s := run evs initial).
  assert (Hwf : wf s) by apply run_wf, wf_initial.
  exists (List.filter (due now s) (_transactions s)).
  split; [by rewrite select_due_filter by (by apply wf_valid)|].
  split; [done|]. split; [apply filter_sublist|].
  apply wf_ids_sorted; [done|by apply filter_sorted, wf_sorted|].
  pose proof (wf_valid s Hwf) as Hv. rewrite Forall_forall in Hv |- *.
  intros r Hr. apply Hv. apply list_elem_of_In in Hr. apply filter_In in Hr as [Hr _].
  by apply list_elem_of_In.
Qed.

(** ** The order of a flush *)

Lemma sendable_same_store s s' r : same_store s s' -> sendable s r -> sendable s' r.
Proof. intros (Hh & Ht & _). unfold sendable. by rewrite Hh, Ht. Qed.

Lemma settle_sendable tr (e : bool) now s r :
  sendable s tr -> r <> tr -> sendable s r ->
  fst ((if e then error tr now else finish tr) s) = Ok tt /\
  sendable (snd ((if e then error tr now else finish tr) s)) r /\
  same_flight s (snd ((if e then error tr now else finish tr) s)).
Proof.
  intros (Hin & o & Ho & _) Hne (Hrin & o' & Ho' & Hfmt). destruct e.
  - rewrite error_eq, Ho. cbn [fst snd]. split; [done|]. split; [|done].
    split; [done|]. exists o'. cbn [heap]. by rewrite list_lookup_insert_ne.
  - rewrite finish_eq, Ho. cbn zeta.
    destruct (list_remove_In _ _ Hin) as [trs' Hr]. rewrite Hr. cbn [fst snd].
    split; [done|]. split; [|done].
    split; [by apply (list_remove_elem tr r _ _ Hr)|eauto].
Qed.

Lemma settle_ok tr (e : bool) now s :
  sendable s tr ->
  fst ((if e then error tr now else finish tr) s) = Ok tt /\
  same_flight s (snd ((if e then error tr now else finish tr) s)).
Proof.
  intros (Hin & o & Ho & _). destruct e.
  - by rewrite error_eq, Ho.
  - rewrite finish_eq, Ho. cbn zeta.
    destruct (list_remove_In _ _ Hin) as [trs' Hr]. by rewrite Hr.
Qed.

(** One response: the transaction it answers is settled and the next one,
    the last of the cursor's list, is sent. *)
Lemma chain_step s f l e now :
  pending s = [f] -> _trs_to_flush s = Some l ->
  NoDup (l ++ [fetch_tr f]) -> Forall (sendable s) (l ++ [fetch_tr f]) ->
  let s1 := step (EvResponse 0 e now) s in
  (forall r, r ∈ l -> sendable s1 r) /\
  match pop l with
  | None => _trs_to_flush s1 = None /\ pending s1 = [] /\ fetches s1 = fetches s
  | Some (x, l0) =>
      _trs_to_flush s1 = Some l0 /\
      exists f', pending s1 = [f'] /\ fetches s1 = fetches s ++ [f'] /\
                 fetch_tr f' = x /\ fetch_url f' = fetch_url f
  end.
Proof.
  intros Hp Hc Hnd Hs. cbn zeta. unfold step, exec.
  rewrite handle_response_eq, Hp. cbn [lookup list_lookup delete list_delete].
  set (s0 := set_fetches (fetches s) [] s).
  set (tr := fetch_tr f) in *.
  apply NoDup_app in Hnd as (_ & Hdisj & _).
  assert (Hne : forall r, r ∈ l -> r <> tr).
  { intros r Hr ->. apply (Hdisj tr Hr). by apply list_elem_of_singleton. }
  rewrite Forall_app, Forall_singleton in Hs. destruct Hs as [Hsl Hstr].
  rewrite Forall_forall in Hsl.
  assert (Hs0 : forall r, sendable s r -> sendable s0 r) by done.
  rewrite on_response_eq.
  pose proof (settle_ok tr e now s0 (Hs0 _ Hstr)) as [Hok (Hc1 & Hf1 & Hp1)].
  assert (Hkeep : forall r, r ∈ l ->
            sendable (snd ((if e then error tr now else finish tr) s0)) r).
  { intros r Hr. apply settle_sendable; auto. }
  destruct ((if e then error tr now else finish tr) s0) as [[[]|x] s1] eqn:Hset;
    cbn [fst snd] in *; [|discriminate].
  split.
  { intros r Hr. eapply sendable_same_store; [apply flush_next_same_store|auto]. }
  cbn [s0 set_fetches _trs_to_flush fetches pending] in Hc1, Hf1, Hp1.
  rewrite flush_next_eq, Hc1, Hc.
  destruct (pop l) as [[x l0]|] eqn:Hpop.
  2:{ cbn [snd set_trs_to_flush _trs_to_flush fetches pending].
      by rewrite Hf1, Hp1. }
  apply pop_Some in Hpop. subst l.
  destruct (Hkeep x) as (_ & ox & Hox & [body Hbody]).
  { apply elem_of_app. right. by apply list_elem_of_singleton. }
  rewrite Hox, Hbody.
  cbn [snd _trs_to_flush fetches pending fetch_tr fetch_url].
  rewrite Hf1, Hp1. split; [done|]. eexists. split; [reflexivity|].
  split; [reflexivity|]. split; reflexivity.
Qed.

Lemma chain_order l : forall s f rs,
  pending s = [f] -> _trs_to_flush s = Some l ->
  NoDup (l ++ [fetch_tr f]) -> Forall (sendable s) (l ++ [fetch_tr f]) ->
  length rs = S (length l) ->
  map fetch_tr (fetches (run (responses rs) s)) = map fetch_tr (fetches s) ++ rev l /\
  _trs_to_flush (run (responses rs) s) = None /\
  pending (run (responses rs) s) = [].
Proof.
  induction l as [|x l0 IH] using rev_ind; intros s f rs Hp Hc Hnd Hs Hlen.
  - destruct rs as [|[e now] [|r rs]]; cbn in Hlen; try lia.
    destruct (chain_step s f [] e now Hp Hc Hnd Hs) as [_ (Hc1 & Hp1 & Hf1)].
    cbn [responses map run fold_left fst snd] in *.
    by rewrite Hc1, Hp1, Hf1, app_nil_r.
  - destruct rs as [|[e now] rs]; cbn in Hlen; [lia|].
    destruct (chain_step s f (l0 ++ [x]) e now Hp Hc Hnd Hs) as [Hkeep Hnext].
    rewrite pop_snoc in Hnext. destruct Hnext as (Hc1 & f' & Hp1 & Hf1 & Htr & _).
    change (run (responses ((e, now) :: rs)) s)
      with (run (responses rs) (step (EvResponse 0 e now) s)).
    destruct (IH (step (EvResponse 0 e now) s) f' rs) as (Hfe & Hce & Hpe); try done.
    + rewrite Htr. apply NoDup_app in Hnd as (Hnd & _). done.
    + rewrite Htr. rewrite Forall_forall. intros r Hr. by apply Hkeep.
    + rewrite length_app in Hlen. cbn in Hlen. lia.
    + rewrite Hfe, Hf1, map_app, rev_app_distr. cbn. rewrite Htr.
      by rewrite <- app_assoc.
Qed.

(** Settling a queued transaction returns and leaves the others queued. *)
Lemma settle_queued tr (e : bool) now s :
  queued s tr ->
  fst ((if e then error tr now else finish tr) s) = Ok tt /\
  same_flight s (snd ((if e then error tr now else finish tr) s)) /\
  forall r, r <> tr -> queued s r ->
    queued (snd ((if e then error tr now else finish tr) s)) r.
Proof.
  intros (Hin & o & Ho). destruct e.
  - rewrite error_eq, Ho. cbn [fst snd]. split; [done|]. split; [done|].
    intros r Hne (Hrin & o' & Ho'). split; [done|]. exists o'. cbn [heap].
    by rewrite list_lookup_insert_ne.
  - rewrite finish_eq, Ho. cbn zeta.
    destruct (list_remove_In _ _ Hin) as [trs' Hr]. rewrite Hr. cbn [fst snd].
    split; [done|]. split; [done|].
    intros r Hne (Hrin & Hv). split; [|done].
    by apply (list_remove_elem tr r _ _ Hr).
Qed.

(** One response, whatever the formatter does: the last of the cursor's
    list is sent, or nothing is and then nothing waits. *)
Lemma chain_step_any s f l e now :
  pending s = [f] -> _trs_to_flush s = Some l ->
  NoDup (l ++ [fetch_tr f]) -> Forall (queued s) (l ++ [fetch_tr f]) ->
  let s1 := step (EvResponse 0 e now) s in
  (forall r, r ∈ l -> queued s1 r) /\
  ((pending s1 = [] /\ fetches s1 = fetches s) \/
   exists l0 x f', l = l0 ++ [x] /\ _trs_to_flush s1 = Some l0 /\
     pending s1 = [f'] /\ fetches s1 = fetches s ++ [f'] /\ fetch_tr f' = x).
Proof.
  intros Hp Hc Hnd Hs. cbn zeta. unfold step, exec.
  rewrite handle_response_eq, Hp. cbn [lookup list_lookup delete list_delete].
  set (s0 := set_fetches (fetches s) [] s).
  set (tr := fetch_tr f) in *.
  apply NoDup_app in Hnd as (_ & Hdisj & _).
  assert (Hne : forall r, r ∈ l -> r <> tr).
  { intros r Hr ->. apply (Hdisj tr Hr). by apply list_elem_of_singleton. }
  rewrite Forall_app, Forall_singleton in Hs. destruct Hs as [Hsl Hstr].
  rewrite Forall_forall in Hsl.
  assert (Hs0 : forall r, queued s r -> queued s0 r) by done.
  rewrite on_response_eq.
  pose proof (settle_queued tr e now s0 (Hs0 _ Hstr)) as (Hok & (Hc1 & Hf1 & Hp1) & Hkeep).
  destruct ((if e then error tr now else finish tr) s0) as [[[]|x] s1] eqn:Hset;
    cbn [fst snd] in *; [|discriminate].
  cbn [s0 set_fetches _trs_to_flush fetches pending] in Hc1, Hf1, Hp1.
  split.
  { intros r Hr. destruct (flush_next_same_store (fetch_url f) s1) as (Hh & Ht & _).
    destruct (Hkeep r) as [Hin Hv]; auto. unfold queued, valid. by rewrite Hh, Ht. }
  rewrite flush_next_eq, Hc1, Hc.
  destruct (pop l) as [[x l0]|] eqn:Hpop.
  2:{ left. cbn [snd set_trs_to_flush fetches pending]. by rewrite Hf1, Hp1. }
  apply pop_Some in Hpop. subst l.
  destruct (heap s1 !! x) as [ox|];
    [|left; cbn [snd set_trs_to_flush fetches pending]; by rewrite Hf1, Hp1].
  destruct (format_body (_data ox)) as [body|];
    [|left; cbn [snd set_trs_to_flush fetches pending]; by rewrite Hf1, Hp1].
  right. exists l0, x. eexists.
  cbn [snd _trs_to_flush fetches pending fetch_tr]. rewrite Hf1, Hp1.
  split; [done|]. split; [done|]. split; [reflexivity|]. split; reflexivity.
Qed.

Lemma responses_idle rs s : pending s = [] -> run (responses rs) s = s.
Proof.
  intros Hp. induction rs as [|[e now] rs IH]; [done|].
  change (run (responses ((e, now) :: rs)) s)
    with (run (responses rs) (step (EvResponse 0 e now) s)).
  unfold step at 1, exec. rewrite handle_response_eq, Hp. exact IH.
Qed.

Lemma chain_prefix l : forall s f rs,
  pending s = [f] -> _trs_to_flush s = Some l ->
  NoDup (l ++ [fetch_tr f]) -> Forall (queued s) (l ++ [fetch_tr f]) ->
  exists sent,
    map fetch_tr (fetches (run (responses rs) s)) = map fetch_tr (fetches s) ++ sent /\
    sent `prefix_of` rev l.
Proof.
  induction l as [|x l0 IH] using rev_ind; intros s f rs Hp Hc Hnd Hs.
  - exists []. split; [|done]. rewrite app_nil_r.
    destruct rs as [|[e now] rs]; [done|].
    change (run (responses ((e, now) :: rs)) s)
      with (run (responses rs) (step (EvResponse 0 e now) s)).
    destruct (chain_step_any s f [] e now Hp Hc Hnd Hs) as [_ [[Hp1 Hf1]|Hsent]].
    + by rewrite responses_idle, Hf1.
    + destruct Hsent as (l0 & x & _ & Hl & _). by destruct l0.
  - destruct rs as [|[e now] rs].
    { exists []. split; [by rewrite app_nil_r|apply prefix_nil]. }
    change (run (responses ((e, now) :: rs)) s)
      with (run (responses rs) (step (EvResponse 0 e now) s)).
    destruct (chain_step_any s f (l0 ++ [x]) e now Hp Hc Hnd Hs)
      as [Hkeep [[Hp1 Hf1]|Hsent]].
    + exists []. split; [|apply prefix_nil].
      by rewrite responses_idle, Hf1, app_nil_r.
    + destruct Hsent as (l1 & y & f' & Hl & Hc1 & Hp1 & Hf1 & Htr).
      apply app_inj_tail in Hl as [<- <-].
      destruct (IH (step (EvResponse 0 e now) s) f' rs) as (sent & Hsent & Hpre);
        try done.
      * rewrite Htr. by apply NoDup_app in Hnd as (Hnd & _).
      * rewrite Htr. rewrite Forall_forall. intros r Hr. by apply Hkeep.
      * exists (x :: sent). split.
        -- rewrite Hsent, Hf1, map_app, <- app_assoc. cbn. by rewrite Htr.
        -- rewrite rev_app_distr. cbn. by apply prefix_cons.
Qed.

(** Whatever the formatter does and however many responses come, what one
    flush of an idle queue sends is a beginning of the due transactions
    taken newest first. *)
Lemma flush_sends_prefix now s rs :
  _trs_to_flush s = None -> pending s = [] ->
  NoDup (_transactions s) -> Forall (valid s) (_transactions s) ->
  exists sent,
    map fetch_tr (fetches (run (EvFlush now :: responses rs) s))
      = map fetch_tr (fetches s) ++ sent /\
    sent `prefix_of` rev (List.filter (due now s) (_transactions s)).
Proof.
  intros Hc Hp Hnd Hv.
  change (run (EvFlush now :: responses rs) s)
    with (run (responses rs) (step (EvFlush now) s)).
  assert (Hndf : NoDup (List.filter (due now s) (_transactions s))).
  { apply (sublist_NoDup _ (_transactions s)); [done|apply filter_sublist]. }
  assert (Hq : Forall (queued s) (List.filter (due now s) (_transactions s))).
  { rewrite Forall_forall in Hv |- *. intros r Hr.
    apply list_elem_of_In, filter_In in Hr as [Hr _]. apply list_elem_of_In in Hr.
    split; [done|by apply Hv]. }
  unfold step at 1, exec. change (handle (EvFlush now)) with (flush now).
  rewrite flush_eq, Hc, select_due_filter by done. cbn [fst app].
  destruct (List.filter (due now s) (_transactions s)) as [|y l0 _] using rev_ind.
  { exists []. split; [|done]. cbn [length Nat.ltb Nat.leb snd].
    by rewrite responses_idle, app_nil_r. }
  rewrite length_app. cbn [length].
  replace (0 <? length l0 + 1)%nat with true by (symmetry; apply Nat.ltb_lt; lia).
  rewrite flush_next_eq. cbn [_trs_to_flush set_trs_to_flush]. rewrite pop_snoc.
  cbn [heap set_trs_to_flush set_log].
  destruct (heap s !! y) as [oy|];
    [|exists []; split; [|apply prefix_nil];
      by rewrite responses_idle, app_nil_r].
  destruct (format_body (_data oy)) as [body|];
    [|exists []; split; [|apply prefix_nil];
      by rewrite responses_idle, app_nil_r].
  cbn [snd].
  match goal with |- context [run (responses rs) ?s1] =>
    destruct (chain_prefix l0 s1
                (mkFetch (mkHTTPRequest (ddUrl ++ "/intake/") "POST" (Some body))
                   y (ddUrl ++ "/intake/")) rs)
      as (sent & Hsent & Hpre) end.
  - cbn. by rewrite Hp.
  - done.
  - done.
  - done.
  - exists (y :: sent). split.
    + rewrite Hsent. cbn [fetches]. rewrite map_app, <- app_assoc. done.
    + rewrite rev_app_distr. cbn. by apply prefix_cons.
Qed.

(** The flush of an idle queue sends the last of the due transactions. *)
Lemma flush_starts now s l x :
  _trs_to_flush s = None -> pending s = [] ->
  Forall (valid s) (_transactions s) ->
  List.filter (due now s) (_transactions s) = l ++ [x] ->
  Forall (sendable s) (l ++ [x]) ->
  let s1 := step (EvFlush now) s in
  _trs_to_flush s1 = Some l /\ same_store s s1 /\
  exists f, pending s1 = [f] /\ fetches s1 = fetches s ++ [f] /\ fetch_tr f = x.
Proof.
  intros Hc Hp Hv Hdue Hs. cbn zeta. unfold step, exec.
  change (handle (EvFlush now)) with (flush now).
  rewrite flush_eq, Hc, select_due_filter by done. cbn [fst app]. rewrite Hdue.
  rewrite length_app. cbn [length].
  replace (0 <? length l + 1)%nat with true by (symmetry; apply Nat.ltb_lt; lia).
  rewrite flush_next_eq. cbn [_trs_to_flush set_trs_to_flush]. rewrite pop_snoc.
  rewrite Forall_app, Forall_singleton in Hs.
  destruct Hs as (_ & _ & ox & Hox & [body Hbody]).
  cbn [heap set_trs_to_flush set_log]. rewrite Hox, Hbody.
  cbn [snd _trs_to_flush fetches pending heap _transactions _counter
       set_trs_to_flush set_log fetch_tr].
  rewrite Hp. split; [done|]. split; [done|].
  eexists. split; [reflexivity|]. split; reflexivity.
Qed.

Lemma flush_delivers_newest_first now s rs :
  _trs_to_flush s = None -> pending s = [] ->
  NoDup (_transactions s) ->
  Forall (sendable s) (List.filter (due now s) (_transactions s)) ->
  Forall (valid s) (_transactions s) ->
  length rs = length (List.filter (due now s) (_transactions s)) ->
  let s' := run (EvFlush now :: responses rs) s in
  map fetch_tr (fetches s') =
    map fetch_tr (fetches s) ++ rev (List.filter (due now s) (_transactions s)) /\
  _trs_to_flush s' = None /\ pending s' = [].
Proof.
  intros Hc Hp Hnd Hs Hv Hlen. cbn zeta.
  change (run (EvFlush now :: responses rs) s)
    with (run (responses rs) (step (EvFlush now) s)).
  assert (Hndf : NoDup (List.filter (due now s) (_transactions s))).
  { apply (sublist_NoDup _ (_transactions s)); [done|apply filter_sublist]. }
  destruct (List.filter (due now s) (_transactions s)) as [|y l0 _] eqn:Hdue
    using rev_ind.
  - destruct rs; [|done]. cbn [responses map run fold_left].
    unfold step, exec. change (handle (EvFlush now)) with (flush now).
    rewrite flush_eq, Hc, select_due_filter, Hdue by done. cbn.
    by rewrite app_nil_r.
  - destruct (flush_starts now s l0 y Hc Hp Hv Hdue Hs) as (Hc1 & Hst & f & Hp1 & Hf1 & Htr).
    destruct (chain_order l0 (step (EvFlush now) s) f rs) as (Hfe & Hce & Hpe);
      try done.
    + by rewrite Htr.
    + rewrite Htr. eapply Forall_impl; [exact Hs|].
      intros r. by apply sendable_same_store.
    + rewrite length_app in Hlen. cbn in Hlen. lia.
    + rewrite Hfe, Hf1, map_app, rev_app_distr. cbn. rewrite Htr.
      by rewrite <- app_assoc.
Qed.

(** C5 fails on the code: when the due transactions of an idle queue are
    [a], [b] and [c], in the order they were enqueued in, and [format_body]
    refuses the payload of [c], the flush pops [c] and stops on the
    [NameError] of [get_data], the defect of C9: no request leaves, [a] and
    [b] stay in the cursor, and whatever responses, ticks and requests
    follow, nothing is sent any more.  None of the three is delivered. *)
Theorem flush_newest_refused (s : State) (a b c : nat) (oc : Transaction)
    (now : datetime) :
  _trs_to_flush s = None -> pending s = [] ->
  Forall (valid s) (_transactions s) ->
  List.filter (due now s) (_transactions s) = [a; b; c] ->
  heap s !! c = Some oc ->
  format_body (_data oc) = None ->
  fst (flush now s) = Raise (NameError "logger") /\
  _trs_to_flush (snd (flush now s)) = Some [a; b] /\
  _transactions (snd (flush now s)) = _transactions s /\
  heap (snd (flush now s)) = heap s /\
  forall evs,
    fetches (run (EvFlush now :: evs) s) = fetches s /\
    pending (run (EvFlush now :: evs) s) = [] /\
    is_Some (_trs_to_flush (run (EvFlush now :: evs) s)).
Proof.
  intros Hc Hp Hv Hdue Ho Hf.
  assert (Hfl : flush now s =
    (Raise (NameError "logger"),
     set_trs_to_flush (Some [a; b])
       (set_trs_to_flush (Some [a; b; c])
          (set_log (log s ++ [(INFO, MsgFlushing 3 (plural 3))]) s)))).
  { rewrite flush_eq, Hc, select_due_filter by done. cbn [fst app]. rewrite Hdue.
    cbn [length Nat.ltb Nat.leb Z.of_nat Pos.of_succ_nat Pos.succ].
    rewrite flush_next_eq. sproj.
    change [a; b; c] with ([a; b] ++ [c]). rewrite pop_snoc, Ho, Hf. reflexivity. }
  rewrite Hfl. cbn [fst snd]. sproj. repeat (split; [done|]).
  intros evs.
  change (run (EvFlush now :: evs) s) with (run evs (snd (flush now s))).
  rewrite Hfl. cbn [snd].
  match goal with |- context [run evs ?s1] =>
    destruct (run_stalled evs s1) as [[Hp1 Hc1] Hfe] end.
  - split; sproj; eauto.
  - rewrite Hfe, Hp1. sproj. done.
Qed.

(** ** More on the queue *)

(** Transactions get the numbers 1, 2, ... in the order they are made in:
    in every state the loop reaches, an instance made later has a larger
    [_id], every [_id] is between 1 and [_counter], and the numbers increase
    strictly along the queue. *)
Theorem ids_increase (evs : list event) :
  let s := run evs initial in
  (forall i j oi oj, heap s !! i = Some oi -> heap s !! j = Some oj ->
     (i < j)%nat -> _id oi < _id oj) /\
  (forall r o, heap s !! r = Some o -> 1 <= _id o <= _counter s) /\
  StronglySorted Z.lt (map (id_of s) (_transactions s)).
Proof.
  cbn zeta. set (s := run evs initial).
  assert (Hwf : wf s) by apply run_wf, wf_initial.
  split; [|split].
  - intros i j oi oj Hi Hj Hlt.
    rewrite (wf_ids s Hwf _ _ Hi), (wf_ids s Hwf _ _ Hj). lia.
  - intros r o Hr. rewrite (wf_ids s Hwf _ _ Hr), (wf_counter s Hwf).
    apply lookup_lt_Some in Hr. lia.
  - apply wf_ids_sorted; [done|by apply wf_sorted|by apply wf_valid].
Qed.

Lemma post_with_enqueues payload hash now_init now_flush s :
  let r := post_with payload hash now_init now_flush s in
  match accepted_values payload hash with
  | Some msg =>
      heap (snd r) = heap s ++ [mkTransaction (_counter s + 1) msg 0 now_init] /\
      _transactions (snd r) = _transactions s ++ [length (heap s)] /\
      _counter (snd r) = _counter s + 1
  | None =>
      heap (snd r) = heap s /\ _transactions (snd r) = _transactions s /\
      _counter (snd r) = _counter s /\
      status_of (fst r) = 500
  end.
Proof.
  cbn zeta. unfold accepted_values. rewrite post_with_eq, parse_message_eq.
  destruct (md5_hexdigest payload) as [c_hash|]; [|done].
  destruct (String.eqb c_hash hash); [|done].
  destruct (json_decode payload) as [v|]; [|done].
  destruct (is_PyNone v); [done|].
  destruct (flush_same_store now_flush (snd (Transaction_init v now_init s)))
    as (Hh & Ht & Hc).
  rewrite Hh, Ht, Hc. by rewrite Transaction_init_eq.
Qed.

(** [post] makes a transaction exactly for a request that has both fields,
    whose hash, as [get_argument] returns it, is the digest of its payload,
    as [get_argument] returns it, and whose payload decodes to something
    other than [None]: it then gets the next number, no error and the time
    of its making, at the end of the queue, whatever the flush that follows
    does.  Any other request makes none, and is answered with status 500
    when it has both fields and with status 400 when it lacks one. *)
Theorem post_enqueues (request : HTTPServerRequest) (now_init now_flush : datetime)
    (s : State) :
  let s' := snd (post request now_init now_flush s) in
  match accepted request with
  | Some msg =>
      heap s' = heap s ++ [mkTransaction (_counter s + 1) msg 0 now_init] /\
      _transactions s' = _transactions s ++ [length (heap s)] /\
      _counter s' = _counter s + 1
  | None =>
      heap s' = heap s /\ _transactions s' = _transactions s /\
      _counter s' = _counter s /\
      fst (intake request now_init now_flush s) =
        match argument PAYLOAD request, argument HASH request with
        | Some _, Some _ => 500
        | _, _ => 400
        end
  end.
Proof.
  cbn zeta. unfold intake, accepted. cbn [fst]. rewrite post_args.
  destruct (argument PAYLOAD request) as [payload|]; [|done].
  destruct (argument HASH request) as [hash|]; [|done].
  apply post_with_enqueues.
Qed.

(** A flush that finds no cursor and no transaction due, an empty queue
    included, returns and leaves the state as it is, log and all. *)
Theorem flush_nothing_due (now : datetime) (s : State) :
  _trs_to_flush s = None ->
  Forall (valid s) (_transactions s) ->
  (forall r, r ∈ _transactions s -> due now s r = false) ->
  flush now s = (Ok tt, s).
Proof.
  intros Hc Hv Hnone. rewrite flush_eq, Hc, select_due_filter by done.
  cbn [fst app].
  assert (Hf : List.filter (due now s) (_transactions s) = []).
  { induction (_transactions s) as [|r l IH]; [done|]. cbn.
    rewrite (Hnone r) by (by left). apply IH.
    - by inversion Hv.
    - intros r' Hr'. apply Hnone. by right. }
  by rewrite Hf.
Qed.

Lemma due_after_failure tr url now s o now' :
  heap s !! tr = Some o ->
  due now' (snd (on_response tr url true now s)) tr
    = (replace_microsecond_0 (now + retry_delay (_error_count o + 1)) <? now').
Proof.
  intros Ho. destruct (on_response_failure tr url now s o Ho) as [Hh _].
  unfold due. rewrite Hh, list_lookup_insert_eq by (by eapply lookup_lt_Some).
  reflexivity.
Qed.

(** After a response with an error, at time [now], to a queued transaction
    that had failed [n >= 0] times, the list that the loop of [flush]
    builds at time [now'] holds the transaction exactly when [now'] is past
    [now] plus the delay of [n + 1], cut to the second: never while [now']
    is at most 19 seconds after [now], always once [now'] is more than 60
    seconds after it.  [flush] runs that loop only when no flush is in
    progress; while one is, it builds no list and leaves queue, store and
    cursor as they are. *)
Theorem retry_window (tr : nat) (url : string) (now now' : datetime) (s : State)
    (o : Transaction) :
  heap s !! tr = Some o ->
  0 <= _error_count o ->
  tr ∈ _transactions s ->
  Forall (valid s) (_transactions s) ->
  let s' := snd (on_response tr url true now s) in
  (exists to_flush,
     select_due now' (_transactions s') [] s' = (Ok to_flush, s') /\
     (tr ∈ to_flush <->
        replace_microsecond_0 (now + retry_delay (_error_count o + 1)) < now') /\
     (now' <= now + timedelta_seconds 19 -> tr ∉ to_flush) /\
     (now + timedelta_seconds 60 < now' -> tr ∈ to_flush) /\
     (_trs_to_flush s' = None ->
      flush now' s' =
        if (0 <? length to_flush)%nat then
          _flush_next (ddUrl ++ "/intake/")
            (set_trs_to_flush (Some to_flush)
               (set_log (log s' ++ [(INFO, MsgFlushing (length to_flush)
                                             (plural (Z.of_nat (length to_flush))))]) s'))
        else (Ok tt, s'))) /\
  (is_Some (_trs_to_flush s') ->
   flush now' s' = (Ok tt, set_log (log s' ++ [(INFO, MsgFlushInProgress)]) s')).
Proof.
  intros Ho Hn Hin Hv. cbn zeta.
  destruct (on_response_failure tr url now s o Ho) as [Hh Ht].
  set (s' := snd (on_response tr url true now s)) in *.
  assert (Hv' : Forall (valid s') (_transactions s')).
  { rewrite Ht. eapply Forall_impl; [exact Hv|]. intros r [x Hx]. unfold valid.
    rewrite Hh. destruct (decide (r = tr)) as [->|Hne].
    - rewrite list_lookup_insert_eq by (by eapply lookup_lt_Some). eauto.
    - rewrite list_lookup_insert_ne by done. eauto. }
  assert (Hdue : due now' s' tr
    = (replace_microsecond_0 (now + retry_delay (_error_count o + 1)) <? now')).
  { apply due_after_failure. exact Ho. }
  assert (Hmem : tr ∈ List.filter (due now' s') (_transactions s') <->
                 due now' s' tr = true).
  { rewrite list_elem_of_In, filter_In, <- list_elem_of_In, Ht. tauto. }
  split.
  - exists (List.filter (due now' s') (_transactions s')).
    rewrite select_due_filter by done. cbn [app]. split; [done|].
    assert (Hfl : _trs_to_flush s' = None -> flush now' s' =
        if (0 <? length (List.filter (due now' s') (_transactions s')))%nat then
          _flush_next (ddUrl ++ "/intake/")
            (set_trs_to_flush (Some (List.filter (due now' s') (_transactions s')))
               (set_log (log s' ++ [(INFO, MsgFlushing
                  (length (List.filter (due now' s') (_transactions s')))
                  (plural (Z.of_nat (length (List.filter (due now' s')
                                               (_transactions s'))))))]) s'))
        else (Ok tt, s')).
    { intros Hc. by rewrite flush_eq, Hc, select_due_filter by done. }
    rewrite Hmem, Hdue. clear Hmem Hdue.
    cut (((replace_microsecond_0 (now + retry_delay (_error_count o + 1)) <? now')
            = true <->
          replace_microsecond_0 (now + retry_delay (_error_count o + 1)) < now') /\
         (now' <= now + timedelta_seconds 19 ->
          (replace_microsecond_0 (now + retry_delay (_error_count o + 1)) <? now')
            <> true) /\
         (now + timedelta_seconds 60 < now' ->
          (replace_microsecond_0 (now + retry_delay (_error_count o + 1)) <? now')
            = true)); [tauto|].
    set (delay := retry_delay (_error_count o + 1)).
    assert (Hd : timedelta_seconds 20 <= delay <= timedelta_seconds 60).
    { unfold delay. rewrite retry_delay_min. unfold timedelta_seconds, MICROS. lia. }
    pose proof (microsecond_range (now + delay)) as Hm.
    unfold replace_microsecond_0, timedelta_seconds, MICROS in *.
    split; [apply Z.ltb_lt|]. split; intros H.
    + rewrite Z.ltb_lt. lia.
    + apply Z.ltb_lt. lia.
  - intros Hc. by apply flush_in_progress.
Qed.

(** ** What the flush chain keeps *)

Lemma chain_ok_same_queue s s' : same_queue s s' -> chain_ok s -> chain_ok s'.
Proof.
  intros (Hh & Ht & Hc & Hcur & Hf & Hp) [H1 H2 H3 H4].
  split.
  - by apply (wf_same_store s).
  - unfold single_flight. by rewrite Hp, Hcur.
  - unfold cursor_list, in_flight. by rewrite Hcur, Hp.
  - unfold cursor_list, in_flight. by rewrite Hcur, Hp, Ht.
Qed.

Lemma chain_ok_idle s : wf s -> _trs_to_flush s = None -> pending s = [] -> chain_ok s.
Proof.
  intros Hwf Hc Hp. split; [done| | |].
  - unfold single_flight. rewrite Hp. split; [cbn; lia|done].
  - unfold cursor_list, in_flight. rewrite Hc, Hp. constructor.
  - unfold cursor_list, in_flight. rewrite Hc, Hp. constructor.
Qed.

Lemma chain_ok_cursor s l :
  wf s -> _trs_to_flush s = Some l -> pending s = [] ->
  NoDup l -> Forall (fun r => r ∈ _transactions s) l -> chain_ok s.
Proof.
  intros Hwf Hc Hp Hnd Hq. split; [done| | |].
  - unfold single_flight. rewrite Hp. split; [cbn; lia|done].
  - unfold cursor_list, in_flight. rewrite Hc, Hp. cbn. by rewrite app_nil_r.
  - unfold cursor_list, in_flight. rewrite Hc, Hp. cbn. by rewrite app_nil_r.
Qed.

Lemma flush_next_chain_ok url s l :
  wf s -> pending s = [] -> _trs_to_flush s = Some l ->
  NoDup l -> Forall (fun r => r ∈ _transactions s) l ->
  chain_ok (snd (_flush_next url s)).
Proof.
  intros Hwf Hp Hc Hnd Hq. rewrite flush_next_eq, Hc.
  destruct (pop l) as [[x l0]|] eqn:Hpop.
  2:{ apply chain_ok_idle; [by apply (wf_same_store s)|done|done]. }
  apply pop_Some in Hpop. subst l.
  assert (Hnd0 : NoDup l0) by (by apply NoDup_app in Hnd as (? & _)).
  assert (Hq0 : Forall (fun r => r ∈ _transactions s) l0)
    by (by apply Forall_app in Hq as [? _]).
  destruct (heap s !! x) as [ox|];
    [|apply (chain_ok_cursor _ l0); try done; by apply (wf_same_store s)].
  destruct (format_body (_data ox)) as [body|];
    [|apply (chain_ok_cursor _ l0); try done; by apply (wf_same_store s)].
  cbn zeta. cbn [snd]. split; [by apply (wf_same_store s)| | |].
  - unfold single_flight. cbn. rewrite Hp. cbn. split; [lia|eauto].
  - unfold cursor_list, in_flight. cbn. by rewrite Hp.
  - unfold cursor_list, in_flight. cbn. by rewrite Hp.
Qed.

Lemma filter_queued (f : nat -> bool) (l : list nat) :
  Forall (fun r => r ∈ l) (List.filter f l).
Proof.
  rewrite Forall_forall. intros r Hr.
  apply list_elem_of_In, filter_In in Hr as [Hr _]. by apply list_elem_of_In.
Qed.

Lemma flush_chain_ok now s : chain_ok s -> chain_ok (snd (flush now s)).
Proof.
  intros Hok. pose proof (chain_wf s Hok) as Hwf. rewrite flush_eq.
  destruct (_trs_to_flush s) eqn:Hc.
  { by apply (chain_ok_same_queue s). }
  pose proof (single_flight_idle _ (chain_single s Hok) Hc) as Hp.
  rewrite select_due_filter by (by apply wf_valid). cbn [fst app].
  destruct (0 <? _)%nat; [|done].
  apply (flush_next_chain_ok _ _ (List.filter (due now s) (_transactions s))).
  - by apply (wf_same_store s).
  - done.
  - done.
  - apply (sublist_NoDup _ (_transactions s)); [by apply wf_NoDup|apply filter_sublist].
  - apply filter_queued.
Qed.

Lemma Transaction_init_chain_ok data now s :
  chain_ok s -> chain_ok (snd (Transaction_init data now s)).
Proof.
  intros [H1 H2 H3 H4]. split.
  - by apply Transaction_init_wf.
  - by rewrite Transaction_init_eq.
  - by rewrite Transaction_init_eq.
  - rewrite Transaction_init_eq. unfold cursor_list, in_flight in *. cbn.
    eapply Forall_impl; [exact H4|]. intros r Hr. apply elem_of_app. by left.
Qed.

Lemma post_with_chain_ok payload hash now_init now_flush s :
  chain_ok s -> chain_ok (snd (post_with payload hash now_init now_flush s)).
Proof.
  intros Hok. rewrite post_with_eq.
  pose proof (parse_message_same_queue payload hash s) as Hq.
  destruct (parse_message payload hash s) as [[v|e] s1]; cbn [snd] in Hq;
    pose proof (chain_ok_same_queue _ _ Hq Hok) as Hok1; [|done].
  destruct (is_PyNone v); [done|].
  by apply flush_chain_ok, Transaction_init_chain_ok.
Qed.

Lemma post_chain_ok request now_init now_flush s :
  chain_ok s -> chain_ok (snd (post request now_init now_flush s)).
Proof.
  intros Hs. apply post_inv; [exact Hs|].
  intros payload hash. by apply post_with_chain_ok.
Qed.

(** The state a response finds once its fetch no longer waits, and what
    settling its transaction leaves for [_flush_next]. *)
Lemma settle_chain_ok s f (e : bool) now :
  chain_ok s -> pending s = [f] ->
  exists l s1,
    _trs_to_flush s = Some l /\
    (if e then error (fetch_tr f) now else finish (fetch_tr f))
      (set_fetches (fetches s) [] s) = (Ok tt, s1) /\
    wf s1 /\ pending s1 = [] /\ _trs_to_flush s1 = Some l /\
    fetches s1 = fetches s /\
    NoDup l /\ Forall (fun r => r ∈ _transactions s1) l /\
    (fetch_tr f ∉ l) /\
    (forall r, r ∈ _transactions s1 -> r ∈ _transactions s) /\
    (e = false -> fetch_tr f ∉ _transactions s1) /\
    (e = true -> _transactions s1 = _transactions s) /\
    data_stable s s1 /\ length (heap s1) = length (heap s).
Proof.
  intros [Hwf Hsf Hnd Hq] Hp.
  destruct Hsf as [_ Hsome]. destruct Hsome as [l Hc]; [by rewrite Hp|].
  unfold cursor_list, in_flight in Hnd, Hq. rewrite Hc, Hp in Hnd, Hq.
  cbn [map] in Hnd, Hq. set (tr := fetch_tr f) in *.
  apply NoDup_app in Hnd as (Hndl & Hdisj & _).
  assert (Hnin : tr ∉ l).
  { intros Hin. apply (Hdisj tr Hin). by apply list_elem_of_singleton. }
  apply Forall_app in Hq as [Hql Hqtr]. rewrite Forall_singleton in Hqtr.
  pose proof (wf_valid s Hwf) as Hv. rewrite Forall_forall in Hv.
  destruct (Hv tr Hqtr) as [o Ho].
  set (s0 := set_fetches (fetches s) [] s).
  assert (Hwf0 : wf s0) by (by apply (wf_same_store s)).
  exists l. destruct e.
  - rewrite error_eq. cbn [s0 set_fetches heap]. rewrite Ho. cbn zeta.
    eexists. split; [done|]. split; [reflexivity|].
    pose proof (error_wf tr now s0 Hwf0) as Hwf1.
    rewrite error_eq in Hwf1. cbn [s0 set_fetches heap] in Hwf1.
    rewrite Ho in Hwf1. cbn [snd] in Hwf1.
    split; [exact Hwf1|]. sproj.
    repeat (split; [done|]). split.
    + intros r o' Hr. sproj. destruct (decide (tr = r)) as [<-|Hne].
      * exists (failed now o). rewrite list_lookup_insert_eq by (by eapply lookup_lt_Some).
        split; [done|]. by simplify_eq.
      * exists o'. by rewrite list_lookup_insert_ne.
    + by rewrite length_insert.
  - rewrite finish_eq. cbn [s0 set_fetches heap]. rewrite Ho. cbn zeta.
    cbn [s0 set_fetches _transactions set_log].
    destruct (list_remove_In _ _ Hqtr) as [trs' Hr]. rewrite Hr.
    eexists. split; [done|]. split; [reflexivity|].
    pose proof (finish_wf tr s0 Hwf0) as Hwf1.
    rewrite finish_eq in Hwf1. cbn [s0 set_fetches heap] in Hwf1.
    rewrite Ho in Hwf1. cbn zeta in Hwf1.
    cbn [s0 set_fetches _transactions set_log] in Hwf1.
    rewrite Hr in Hwf1. cbn [snd] in Hwf1.
    split; [exact Hwf1|]. sproj.
    destruct (list_remove_NoDup _ _ _ (wf_NoDup s Hwf) Hr) as [Hgone _].
    repeat (split; [done|]). split.
    { rewrite Forall_forall in Hql |- *. intros r Hr'.
      apply (list_remove_elem tr r _ _ Hr); [by apply Hql|].
      intros ->. done. }
    split; [done|]. split.
    { intros r Hr'. by apply (list_remove_elem tr r _ _ Hr). }
    split; [done|]. split; [done|]. split; [|done].
    intros r o' Hr'. eauto.
Qed.

Lemma on_response_chain_ok s f e now :
  chain_ok s -> pending s = [f] ->
  chain_ok (snd (on_response (fetch_tr f) (fetch_url f) e now
                   (set_fetches (fetches s) [] s))).
Proof.
  intros Hok Hp.
  destruct (settle_chain_ok s f e now Hok Hp)
    as (l & s1 & Hc & Hset & Hwf1 & Hp1 & Hc1 & _ & Hnd & Hq & _).
  rewrite on_response_eq, Hset. by apply (flush_next_chain_ok _ _ l).
Qed.

Lemma step_chain_ok ev s : chain_ok s -> chain_ok (step ev s).
Proof.
  intros Hok. unfold step, exec. destruct ev as [req n1 n2|now|i e now].
  - by apply post_chain_ok.
  - by apply flush_chain_ok.
  - rewrite handle_response_eq. destruct (pending s !! i) as [f|] eqn:Hi; [|done].
    destruct (pending_single _ _ _ (chain_single s Hok) Hi) as [Hp ->].
    rewrite Hp. cbn [delete list_delete]. by apply on_response_chain_ok.
Qed.

Lemma run_chain_ok evs s : chain_ok s -> chain_ok (run evs s).
Proof.
  revert s. induction evs as [|ev evs IH]; intros s Hs; [done|].
  change (run (ev :: evs) s) with (run evs (step ev s)). by apply IH, step_chain_ok.
Qed.

Lemma initial_chain_ok : chain_ok initial.
Proof. apply chain_ok_idle; [apply wf_initial|done|done]. Qed.

(** In every state the loop reaches, the transaction whose response is
    awaited is still in the queue and no longer in the cursor's list, the
    cursor's list holds no transaction twice, and all it holds are in the
    queue. *)
Theorem in_flight_queued (evs : list event) :
  let s := run evs initial in
  (forall f, f ∈ pending s ->
     (fetch_tr f ∈ _transactions s) /\ (fetch_tr f ∉ cursor_list s)) /\
  NoDup (cursor_list s) /\
  (forall r, r ∈ cursor_list s -> r ∈ _transactions s) /\
  NoDup (_transactions s).
Proof.
  cbn zeta. set (s := run evs initial).
  assert (Hok : chain_ok s) by apply run_chain_ok, initial_chain_ok.
  destruct Hok as [Hwf _ Hnd Hq].
  apply NoDup_app in Hnd as (Hnd & Hdisj & _).
  rewrite Forall_app, !Forall_forall in Hq. destruct Hq as [Hql Hqf].
  split; [|split; [done|split; [done|by apply wf_NoDup]]].
  intros f Hf.
  assert (Hin : fetch_tr f ∈ in_flight s) by (by apply list_elem_of_fmap_2).
  split; [by apply Hqf|]. intros Hc. by apply (Hdisj _ Hc).
Qed.

(** ** The exceptions of the callbacks *)




(** ** After a delivery *)

Lemma select_due_subset now trs : forall acc s l s',
  select_due now trs acc s = (Ok l, s') ->
  forall r, r ∈ l -> (r ∈ acc) \/ (r ∈ trs).
Proof.
  induction trs as [|tr rest IH]; intros acc s l s' Hsel r Hr.
  - cbn in Hsel. injection Hsel as <- _. by left.
  - cbn [select_due] in Hsel. revert Hsel. munfold.
    destruct (heap s !! tr) as [o|]; [|discriminate].
    destruct (time_to_flush o now); intros Hsel.
    + destruct (IH _ _ _ _ Hsel r Hr) as [Ha|Ht]; [|right; by right].
      apply elem_of_app in Ha as [Ha|Ha]; [by left|].
      apply list_elem_of_singleton in Ha as ->. right. by left.
    + destruct (IH _ _ _ _ Hsel r Hr) as [Ha|Ht]; [by left|right; by right].
Qed.

Lemma sent_count_snoc tr s f fs :
  fetches s = fs ++ [f] -> fetch_tr f <> tr ->
  length (List.filter (fun f => Nat.eqb (fetch_tr f) tr) fs) = sent_count tr s.
Proof.
  intros Hf Hne. unfold sent_count. rewrite Hf, List.filter_app, length_app. cbn.
  destruct (Nat.eqb_spec (fetch_tr f) tr); [done|]. cbn. lia.
Qed.

Lemma flush_next_gone tr url s :
  gone tr s ->
  gone tr (snd (_flush_next url s)) /\
  sent_count tr (snd (_flush_next url s)) = sent_count tr s.
Proof.
  intros (Hlt & Hq & Hcl & Hfl). rewrite flush_next_eq.
  unfold cursor_list in Hcl.
  destruct (_trs_to_flush s) as [l|] eqn:Hc.
  2:{ split; [|done]. cbn [snd]. repeat split; try done.
      unfold cursor_list. rewrite Hc. apply not_elem_of_nil. }
  destruct (pop l) as [[x l0]|] eqn:Hpop.
  2:{ split; [|done]. repeat split; try done. unfold cursor_list. sproj.
      by apply not_elem_of_nil. }
  apply pop_Some in Hpop. subst l.
  rewrite elem_of_app, list_elem_of_singleton in Hcl.
  assert (Hstuck : gone tr (set_trs_to_flush (Some l0) s)).
  { repeat split; try done. unfold cursor_list. sproj. tauto. }
  destruct (heap s !! x) as [ox|]; [|done].
  destruct (format_body (_data ox)) as [body|]; [|done].
  cbn zeta. cbn [snd]. split.
  - repeat split; try done.
    + unfold cursor_list. sproj. tauto.
    + unfold in_flight in *. sproj. rewrite map_app, elem_of_app. cbn.
      rewrite list_elem_of_singleton. intros [?|?]; [done|]. tauto.
  - symmetry. eapply sent_count_snoc; [reflexivity|]. cbn. intros ->. tauto.
Qed.

Lemma settle_gone tr tr' (e : bool) now s :
  tr' <> tr -> gone tr s ->
  gone tr (snd ((if e then error tr' now else finish tr') s)) /\
  fetches (snd ((if e then error tr' now else finish tr') s)) = fetches s.
Proof.
  intros Hne (Hlt & Hq & Hcl & Hfl). destruct e.
  - rewrite error_eq. destruct (heap s !! tr'); [|done].
    split; [|done]. repeat split; try done. sproj. by rewrite length_insert.
  - rewrite finish_eq. destruct (heap s !! tr'); [|done]. cbn zeta.
    destruct (list_remove tr' (_transactions s)) as [trs'|] eqn:Hr; [|done].
    split; [|done]. repeat split; try done. sproj.
    intros Hin. apply Hq. by apply (list_remove_elem tr' tr _ _ Hr).
Qed.

Lemma flush_gone tr now s :
  gone tr s ->
  gone tr (snd (flush now s)) /\ sent_count tr (snd (flush now s)) = sent_count tr s.
Proof.
  intros Hg. pose proof Hg as (Hlt & Hq & Hcl & Hfl). rewrite flush_eq.
  destruct (_trs_to_flush s) eqn:Hc; [done|].
  pose proof (select_due_state now (_transactions s) [] s) as Hst.
  destruct (select_due now (_transactions s) [] s) as [[l|x] s'] eqn:Hsel;
    cbn [fst snd] in *; [|done]. subst s'.
  destruct (0 <? length l)%nat; [|done].
  match goal with |- context [_flush_next ?url ?s2] =>
    destruct (flush_next_gone tr url s2) as [Hg2 Hs2] end.
  - repeat split; try done.
    unfold cursor_list. sproj. intros Hin.
    destruct (select_due_subset _ _ _ _ _ _ Hsel tr Hin) as [Hnil|Htrs]; [|done].
    by apply elem_of_nil in Hnil.
  - split; [exact Hg2|exact Hs2].
Qed.

Lemma step_gone tr ev s :
  gone tr s -> gone tr (step ev s) /\ sent_count tr (step ev s) = sent_count tr s.
Proof.
  intros Hg. pose proof Hg as (Hlt & Hq & Hcl & Hfl).
  unfold step, exec. destruct ev as [req n1 n2|now|i e now].
  - change (handle (EvPost req n1 n2)) with (post req n1 n2). post_split req p h.
    pose proof (parse_message_same_queue p h s) as Hsq.
    destruct (parse_message p h s) as [[v|x] s1]; cbn [snd] in Hsq;
      destruct Hsq as (Hh & Ht & _ & Hc1 & Hf1 & Hp1);
      assert (Hg1 : gone tr s1)
        by (unfold gone, cursor_list, in_flight; by rewrite Hh, Ht, Hc1, Hp1);
      assert (Hs1 : sent_count tr s1 = sent_count tr s)
        by (unfold sent_count; by rewrite Hf1).
    2:{ done. }
    destruct (is_PyNone v); [done|].
    rewrite <- Hs1. rewrite Transaction_init_eq. cbn [snd].
    match goal with |- context [flush n2 ?s2] =>
      change (sent_count tr s1) with (sent_count tr s2);
      apply (flush_gone tr n2 s2) end.
    destruct Hg1 as (Hlt1 & Hq1 & Hcl1 & Hfl1). repeat split; try done.
    + sproj. rewrite length_app. cbn. lia.
    + sproj. rewrite elem_of_app, list_elem_of_singleton. intros [?|?]; [done|lia].
  - by apply flush_gone.
  - rewrite handle_response_eq. destruct (pending s !! i) as [f|] eqn:Hi; [|done].
    rewrite on_response_eq.
    set (s0 := set_fetches (fetches s) (delete i (pending s)) s).
    assert (Hne : fetch_tr f <> tr).
    { intros <-. apply Hfl. apply list_elem_of_fmap_2.
      by eapply list_elem_of_lookup_2. }
    assert (Hg0 : gone tr s0).
    { repeat split; try done. unfold in_flight. cbn [s0 set_fetches pending].
      intros Hin. apply Hfl. apply list_elem_of_fmap in Hin as (f' & -> & Hf').
      apply list_elem_of_fmap_2. eapply elem_of_sublist; [exact Hf'|].
      apply sublist_delete. }
    destruct (settle_gone tr (fetch_tr f) e now s0 Hne Hg0) as [Hg1 Hf1].
    destruct ((if e then error (fetch_tr f) now else finish (fetch_tr f)) s0)
      as [[[]|x] s1]; cbn [snd] in *.
    + destruct (flush_next_gone tr (fetch_url f) s1 Hg1) as [Hg2 Hs2].
      split; [done|]. rewrite Hs2. unfold sent_count. by rewrite Hf1.
    + split; [done|]. unfold sent_count. by rewrite Hf1.
Qed.

Lemma run_gone tr evs s :
  gone tr s -> sent_count tr (run evs s) = sent_count tr s.
Proof.
  revert s. induction evs as [|ev evs IH]; intros s Hg; [done|].
  change (run (ev :: evs) s) with (run evs (step ev s)).
  destruct (step_gone tr ev s Hg) as [Hg1 Hs1]. by rewrite IH.
Qed.

(** Once the response to the fetch of a transaction has reported no error,
    no request leaves for that transaction again, whatever the loop does
    next. *)
Theorem delivered_never_resent (evs evs' : list event) (i : nat) (f : Fetch)
    (now : datetime) :
  let s := run evs initial in
  pending s !! i = Some f ->
  sent_count (fetch_tr f) (run evs' (step (EvResponse i false now) s))
    = sent_count (fetch_tr f) s.
Proof.
  cbn zeta. set (s := run evs initial). intros Hi.
  assert (Hok : chain_ok s) by apply run_chain_ok, initial_chain_ok.
  destruct (pending_single _ _ _ (chain_single s Hok) Hi) as [Hp ->].
  destruct (settle_chain_ok s f false now Hok Hp)
    as (l & s1 & Hc & Hset & Hwf1 & Hp1 & Hc1 & Hf1 & Hnd & Hq & Hnin & Hsub
          & Hout & _ & _ & Hlen).
  assert (Hg1 : gone (fetch_tr f) s1).
  { repeat split.
    - rewrite Hlen. pose proof (chain_queued s Hok) as Hqs.
      unfold cursor_list, in_flight in Hqs. rewrite Hc, Hp in Hqs.
      apply Forall_app in Hqs as [_ Hqs]. cbn in Hqs. rewrite Forall_singleton in Hqs.
      pose proof (wf_bound s (chain_wf s Hok)) as Hb. rewrite Forall_forall in Hb.
      by apply Hb.
    - by apply Hout.
    - unfold cursor_list. by rewrite Hc1.
    - unfold in_flight. rewrite Hp1. apply not_elem_of_nil. }
  assert (Hstep : step (EvResponse 0 false now) s = snd (_flush_next (fetch_url f) s1)).
  { unfold step, exec. rewrite handle_response_eq, Hp. cbn [lookup list_lookup].
    cbn [delete list_delete]. by rewrite on_response_eq, Hset. }
  rewrite Hstep.
  destruct (flush_next_gone (fetch_tr f) (fetch_url f) s1 Hg1) as [Hg2 Hs2].
  rewrite (run_gone _ evs' _ Hg2), Hs2. unfold sent_count. by rewrite Hf1.
Qed.

(** ** The requests that leave *)

Lemma sent_ok_stable s s' f : data_stable s s' -> sent_ok s f -> sent_ok s' f.
Proof.
  intros Hd (Hurl & o & body & Ho & Hfmt & Hreq). split; [done|].
  destruct (Hd _ _ Ho) as (o' & Ho' & Hdata). exists o', body.
  by rewrite Hdata.
Qed.

Lemma well_sent_stable s s' :
  data_stable s s' -> fetches s' = fetches s -> pending s' = pending s ->
  well_sent s -> well_sent s'.
Proof.
  intros Hd Hf Hp [H1 H2]. unfold well_sent. rewrite Hf, Hp.
  split; (eapply Forall_impl; [eassumption|]); intros f; by apply sent_ok_stable.
Qed.

Lemma data_stable_same_heap s s' : heap s' = heap s -> data_stable s s'.
Proof. intros Hh r o Ho. exists o. by rewrite Hh. Qed.

Lemma settle_data_stable tr (e : bool) now s :
  data_stable s (snd ((if e then error tr now else finish tr) s)) /\
  same_flight s (snd ((if e then error tr now else finish tr) s)).
Proof.
  destruct e.
  - split; [|apply error_same_flight]. rewrite error_eq.
    destruct (heap s !! tr) as [o|] eqn:Ho; [|by apply data_stable_same_heap].
    intros r o' Hr. sproj. destruct (decide (tr = r)) as [<-|Hne].
    + exists (failed now o). rewrite list_lookup_insert_eq by (by eapply lookup_lt_Some).
      split; [done|]. by simplify_eq.
    + exists o'. by rewrite list_lookup_insert_ne.
  - split; [|apply finish_same_flight]. rewrite finish_eq.
    destruct (heap s !! tr); [|by apply data_stable_same_heap]. cbn zeta.
    destruct (list_remove tr (_transactions s)); by apply data_stable_same_heap.
Qed.

Lemma flush_next_well_sent s :
  well_sent s -> well_sent (snd (_flush_next (ddUrl ++ "/intake/") s)).
Proof.
  intros [Hf Hp]. rewrite flush_next_eq.
  destruct (_trs_to_flush s) as [l|]; [|done].
  destruct (pop l) as [[x l0]|]; [|done].
  destruct (heap s !! x) as [ox|] eqn:Hox; [|done].
  destruct (format_body (_data ox)) as [body|] eqn:Hfmt; [|done].
  cbn zeta. cbn [snd]. unfold well_sent. sproj.
  assert (Hnew : sent_ok s (mkFetch (mkHTTPRequest (ddUrl ++ "/intake/") "POST"
                                        (Some body)) x (ddUrl ++ "/intake/"))).
  { split; [done|]. exists ox, body. done. }
  split; (apply Forall_app; split; [done|]); by apply Forall_singleton.
Qed.

Lemma flush_well_sent now s : well_sent s -> well_sent (snd (flush now s)).
Proof.
  intros Hw. rewrite flush_eq.
  destruct (_trs_to_flush s); [done|].
  destruct (fst (select_due now (_transactions s) [] s)); [|done].
  destruct (0 <? _)%nat; [|done].
  by apply flush_next_well_sent.
Qed.

Lemma step_well_sent ev s : well_sent s -> well_sent (step ev s).
Proof.
  intros Hw. unfold step, exec. destruct ev as [req n1 n2|now|i e now].
  - change (handle (EvPost req n1 n2)) with (post req n1 n2). post_split req p h.
    pose proof (parse_message_same_queue p h s) as Hsq.
    destruct (parse_message p h s) as [[v|x] s1]; cbn [snd] in Hsq;
      destruct Hsq as (Hh & _ & _ & _ & Hf1 & Hp1);
      assert (Hw1 : well_sent s1)
        by (by apply (well_sent_stable s); [apply data_stable_same_heap|..]).
    2:{ done. }
    destruct (is_PyNone v); [done|].
    apply flush_well_sent. rewrite Transaction_init_eq. cbn [snd].
    apply (well_sent_stable s1); [|done|done|done].
    intros r o Hr. exists o. sproj. split; [|done]. by apply lookup_app_l_Some.
  - by apply flush_well_sent.
  - rewrite handle_response_eq. destruct (pending s !! i) as [f|] eqn:Hi; [|done].
    rewrite on_response_eq.
    set (s0 := set_fetches (fetches s) (delete i (pending s)) s).
    destruct Hw as [Hwf Hwp].
    assert (Hurl : fetch_url f = (ddUrl ++ "/intake/")%string).
    { rewrite Forall_forall in Hwp. apply (Hwp f). by eapply list_elem_of_lookup_2. }
    assert (Hw0 : well_sent s0).
    { split; [done|]. cbn [s0 set_fetches pending].
      rewrite Forall_forall in Hwp |- *. intros f' Hf'. apply Hwp.
      eapply elem_of_sublist; [exact Hf'|apply sublist_delete]. }
    destruct (settle_data_stable (fetch_tr f) e now s0) as [Hd (_ & Hf1 & Hp1)].
    pose proof (well_sent_stable _ _ Hd Hf1 Hp1 Hw0) as Hw1.
    destruct ((if e then error (fetch_tr f) now else finish (fetch_tr f)) s0)
      as [[[]|x] s1]; cbn [snd] in *; [|done].
    rewrite Hurl. by apply flush_next_well_sent.
Qed.

Lemma run_well_sent evs s : well_sent s -> well_sent (run evs s).
Proof.
  revert s. induction evs as [|ev evs IH]; intros s Hs; [done|].
  change (run (ev :: evs) s) with (run evs (step ev s)). by apply IH, step_well_sent.
Qed.

(** Every request the loop has sent is a POST to the intake of [ddUrl]
    whose body is what [format_body] makes of the payload of its
    transaction: no request leaves without a body, and the payload of a
    transaction never changes. *)
Theorem requests_well_formed (evs : list event) (f : Fetch) :
  let s := run evs initial in
  f ∈ fetches s ->
  req_method (fetch_req f) = "POST"%string /\
  req_url (fetch_req f) = (ddUrl ++ "/intake/")%string /\
  exists o body, heap s !! fetch_tr f = Some o /\
    format_body (_data o) = Some body /\ req_body (fetch_req f) = Some body.
Proof.
  cbn zeta. intros Hf.
  assert (Hw : well_sent (run evs initial)).
  { apply run_well_sent. split; constructor. }
  destruct Hw as [Hw _]. rewrite Forall_forall in Hw.
  destruct (Hw f Hf) as (_ & o & body & Ho & Hfmt & Hreq).
  rewrite Hreq. cbn. eauto 10.
Qed.

(** ** The flush of the intake *)

Lemma due_init data now_init now s r :
  valid s r ->
  due now (snd (Transaction_init data now_init s)) r = due now s r.
Proof.
  intros [o Ho]. rewrite Transaction_init_eq. unfold due. sproj.
  by rewrite (lookup_app_l_Some _ _ _ _ Ho), Ho.
Qed.

Lemma due_init_new data now_init now s :
  due now (snd (Transaction_init data now_init s)) (length (heap s))
    = (now_init <? now).
Proof.
  rewrite Transaction_init_eq. unfold due. sproj.
  by rewrite list_lookup_middle.
Qed.

Lemma filter_due_init data now_init now s :
  Forall (valid s) (_transactions s) ->
  List.filter (due now (snd (Transaction_init data now_init s)))
    (_transactions (snd (Transaction_init data now_init s)))
  = List.filter (due now s) (_transactions s)
    ++ (if now_init <? now then [length (heap s)] else []).
Proof.
  intros Hv. rewrite Transaction_init_eq at 2. sproj.
  rewrite List.filter_app. cbn [List.filter]. rewrite due_init_new. f_equal.
  induction Hv as [|r l Hr Hl IH]; [done|]. cbn. rewrite due_init by done.
  by rewrite IH.
Qed.

Lemma valid_init data now_init s :
  Forall (valid s) (_transactions s) ->
  Forall (valid (snd (Transaction_init data now_init s)))
    (_transactions (snd (Transaction_init data now_init s))).
Proof.
  intros Hv. rewrite Transaction_init_eq. sproj. apply Forall_app. split.
  - eapply Forall_impl; [exact Hv|]. intros r [o Ho]. exists o. sproj.
    by apply lookup_app_l_Some.
  - apply Forall_singleton. eexists. sproj. apply list_lookup_middle. done.
Qed.

Lemma post_accepted request now_init now_flush s msg :
  accepted request = Some msg ->
  post request now_init now_flush s
    = flush now_flush (snd (Transaction_init msg now_init s)).
Proof.
  unfold accepted, accepted_values. intros Hacc. rewrite post_args.
  destruct (argument PAYLOAD request) as [payload|]; [|done].
  destruct (argument HASH request) as [hash|]; [|done].
  rewrite post_with_eq, parse_message_eq.
  destruct (md5_hexdigest payload) as [c_hash|]; [|done].
  destruct (String.eqb c_hash hash); [|done].
  destruct (json_decode payload) as [v|]; [|done].
  destruct (is_PyNone v) eqn:Hv; [done|]. by simplify_eq.
Qed.

(** When the queue is idle and the clock has moved between the making of
    the transaction and the flush of [post], the message just accepted is
    the first that the flush takes off its list, ahead of every older
    transaction that is due; these are left in the cursor.  When
    [format_body] accepts the message, it is the one request that leaves
    and the answer is 200; when [format_body] refuses it, [get_data] stops
    on its [NameError], nothing leaves and the answer is 500. *)
Theorem post_sends_new_first (request : HTTPServerRequest)
    (now_init now_flush : datetime) (s : State) (msg : pyvalue) :
  _trs_to_flush s = None -> pending s = [] ->
  Forall (valid s) (_transactions s) ->
  accepted request = Some msg ->
  now_init < now_flush ->
  let s' := snd (post request now_init now_flush s) in
  _trs_to_flush s' = Some (List.filter (due now_flush s) (_transactions s)) /\
  match format_body msg with
  | Some body =>
      let f := mkFetch (mkHTTPRequest (ddUrl ++ "/intake/") "POST" (Some body))
                 (length (heap s)) (ddUrl ++ "/intake/") in
      fst (intake request now_init now_flush s) = 200 /\
      pending s' = [f] /\ fetches s' = fetches s ++ [f]
  | None =>
      fst (post request now_init now_flush s) = Raise (NameError "logger") /\
      fst (intake request now_init now_flush s) = 500 /\
      pending s' = [] /\ fetches s' = fetches s
  end.
Proof.
  intros Hc Hp Hv Hacc Hlt. cbn zeta. unfold intake. cbn [fst].
  rewrite (post_accepted _ _ _ _ _ Hacc).
  pose proof (filter_due_init msg now_init now_flush s Hv) as Hfil.
  pose proof (valid_init msg now_init s Hv) as Hv2.
  set (s2 := snd (Transaction_init msg now_init s)) in *.
  assert (Hc2 : _trs_to_flush s2 = None) by (unfold s2; by rewrite Transaction_init_eq).
  assert (Hp2 : pending s2 = []) by (unfold s2; by rewrite Transaction_init_eq).
  assert (Hf2 : fetches s2 = fetches s) by (unfold s2; by rewrite Transaction_init_eq).
  assert (Hh2 : heap s2 !! length (heap s)
                = Some (mkTransaction (_counter s + 1) msg 0 now_init)).
  { unfold s2. rewrite Transaction_init_eq. sproj. by apply list_lookup_middle. }
  rewrite flush_eq, Hc2, select_due_filter by done.
  cbn [fst app]. rewrite Hfil.
  apply Z.ltb_lt in Hlt. rewrite Hlt.
  rewrite length_app. cbn [length].
  replace (0 <? _ + 1)%nat with true by (symmetry; apply Nat.ltb_lt; lia).
  rewrite flush_next_eq. sproj. rewrite pop_snoc, Hh2.
  cbn [_data]. destruct (format_body msg) as [body|].
  - cbn zeta. sproj. by rewrite Hp2, Hf2.
  - cbn zeta. sproj. by rewrite Hp2, Hf2.
Qed.

Lemma flush_next_from url s l :
  pending s = [] -> _trs_to_flush s = Some l ->
  forall r, r ∈ cursor_list (snd (_flush_next url s))
                ++ in_flight (snd (_flush_next url s)) -> r ∈ l.
Proof.
  intros Hp Hc r. rewrite flush_next_eq, Hc.
  destruct (pop l) as [[x l0]|] eqn:Hpop.
  2:{ unfold cursor_list, in_flight. sproj. rewrite Hp. cbn.
      intros Hr. by apply elem_of_nil in Hr. }
  apply pop_Some in Hpop. subst l.
  assert (Hstuck : r ∈ cursor_list (set_trs_to_flush (Some l0) s)
                        ++ in_flight (set_trs_to_flush (Some l0) s) ->
                   r ∈ l0 ++ [x]).
  { unfold cursor_list, in_flight. sproj. rewrite Hp. cbn. rewrite app_nil_r.
    intros Hr. apply elem_of_app. by left. }
  destruct (heap s !! x) as [ox|]; [|done].
  destruct (format_body (_data ox)) as [body|]; [|done].
  cbn zeta. unfold cursor_list, in_flight. sproj. by rewrite Hp.
Qed.

(** When the clock has not moved between the making of the transaction and
    the flush of [post] on an idle queue, the message just accepted is not
    among what that flush takes: it waits for a later flush. *)
Theorem post_leaves_new_for_later (request : HTTPServerRequest)
    (now_init now_flush : datetime) (s : State) (msg : pyvalue) :
  _trs_to_flush s = None -> pending s = [] ->
  Forall (valid s) (_transactions s) ->
  accepted request = Some msg ->
  now_flush <= now_init ->
  let s' := snd (post request now_init now_flush s) in
  (length (heap s) ∈ _transactions s') /\
  (length (heap s) ∉ cursor_list s' ++ in_flight s').
Proof.
  intros Hc Hp Hv Hacc Hle. cbn zeta.
  rewrite (post_accepted _ _ _ _ _ Hacc).
  set (s2 := snd (Transaction_init msg now_init s)).
  assert (Hnew : length (heap s) ∉ List.filter (due now_flush s) (_transactions s)).
  { intros Hin. apply list_elem_of_In, filter_In in Hin as [Hin _].
    rewrite Forall_forall in Hv. destruct (Hv _ (proj2 (list_elem_of_In _ _) Hin)) as [o Ho].
    apply lookup_lt_Some in Ho. lia. }
  split.
  { destruct (flush_same_store now_flush s2) as (_ & Ht & _). rewrite Ht.
    unfold s2. rewrite Transaction_init_eq. sproj.
    apply elem_of_app. right. by apply list_elem_of_singleton. }
  pose proof (filter_due_init msg now_init now_flush s Hv) as Hfil.
  pose proof (valid_init msg now_init s Hv) as Hv2.
  fold s2 in Hfil, Hv2.
  assert (Hc2 : _trs_to_flush s2 = None) by (unfold s2; by rewrite Transaction_init_eq).
  assert (Hp2 : pending s2 = []) by (unfold s2; by rewrite Transaction_init_eq).
  apply Z.ltb_ge in Hle.
  assert (Hfl : flush now_flush s2 =
    if (0 <? length (List.filter (due now_flush s) (_transactions s)))%nat then
      _flush_next (ddUrl ++ "/intake/")
        (set_trs_to_flush (Some (List.filter (due now_flush s) (_transactions s)))
           (set_log (log s2 ++ [(INFO, MsgFlushing
               (length (List.filter (due now_flush s) (_transactions s)))
               (plural (Z.of_nat (length (List.filter (due now_flush s)
                                            (_transactions s))))))]) s2))
    else (Ok tt, s2)).
  { rewrite flush_eq, Hc2, select_due_filter by done.
    cbn [fst app]. by rewrite Hfil, Hle, app_nil_r. }
  rewrite Hfl.
  destruct (0 <? _)%nat.
  - intros Hin. apply Hnew. revert Hin. by apply flush_next_from.
  - unfold cursor_list, in_flight. cbn [snd]. rewrite Hc2, Hp2. apply not_elem_of_nil.
Qed.

(** ** A flush that is delivered *)

Lemma chain_step_success s f now :
  pending s = [f] -> sendable s (fetch_tr f) -> NoDup (_transactions s) ->
  let s1 := step (EvResponse 0 false now) s in
  heap s1 = heap s /\ NoDup (_transactions s1) /\
  forall r, r ∈ _transactions s1 <-> (r ∈ _transactions s) /\ r <> fetch_tr f.
Proof.
  intros Hp (Hin & o & Ho & _) Hnd. cbn zeta. unfold step, exec.
  rewrite handle_response_eq, Hp. cbn [lookup list_lookup delete list_delete].
  destruct (on_response_success (fetch_tr f) (fetch_url f) now
              (set_fetches (fetches s) [] s) o Ho Hin) as (trs' & Hr & Hh & Ht).
  rewrite Hh, Ht. cbn [_transactions set_fetches heap] in Hr |- *.
  destruct (list_remove_NoDup _ _ _ Hnd Hr) as [Hgone Hnd'].
  split; [done|]. split; [done|]. intros r. split.
  - intros Hr'. split; [by apply (list_remove_elem _ r _ _ Hr)|]. by intros ->.
  - intros [Hr' Hne]. by apply (list_remove_elem _ r _ _ Hr).
Qed.

Lemma chain_drain l : forall s f rs,
  pending s = [f] -> _trs_to_flush s = Some l ->
  NoDup (l ++ [fetch_tr f]) -> Forall (sendable s) (l ++ [fetch_tr f]) ->
  NoDup (_transactions s) ->
  Forall (fun r => fst r = false) rs ->
  length rs = S (length l) ->
  heap (run (responses rs) s) = heap s /\
  forall r, r ∈ _transactions (run (responses rs) s) <->
    (r ∈ _transactions s) /\ (r ∉ l ++ [fetch_tr f]).
Proof.
  induction l as [|x l0 IH] using rev_ind; intros s f rs Hp Hc Hnd Hs Hndt Hrs Hlen.
  - destruct rs as [|[e now] [|r rs]]; cbn in Hlen; try lia.
    rewrite Forall_singleton in Hrs. cbn in Hrs. subst e.
    cbn [responses map run fold_left fst snd].
    rewrite app_nil_l, Forall_singleton in Hs.
    destruct (chain_step_success s f now Hp Hs Hndt) as (Hh & _ & Ht).
    split; [done|]. intros r. rewrite Ht. cbn. by rewrite list_elem_of_singleton.
  - destruct rs as [|[e now] rs]; cbn in Hlen; [lia|].
    apply Forall_cons in Hrs as [He Hrs]. cbn in He. subst e.
    destruct (chain_step s f (l0 ++ [x]) false now Hp Hc Hnd Hs) as [Hkeep Hnext].
    rewrite pop_snoc in Hnext. destruct Hnext as (Hc1 & f' & Hp1 & Hf1 & Htr & _).
    assert (Hstr : sendable s (fetch_tr f)).
    { rewrite Forall_forall in Hs. apply Hs, elem_of_app. right.
      by apply list_elem_of_singleton. }
    destruct (chain_step_success s f now Hp Hstr Hndt) as (Hh & Hndt1 & Ht).
    change (run (responses ((false, now) :: rs)) s)
      with (run (responses rs) (step (EvResponse 0 false now) s)).
    destruct (IH (step (EvResponse 0 false now) s) f' rs) as (Hhe & Hte); try done.
    + rewrite Htr. by apply NoDup_app in Hnd as (Hnd & _).
    + rewrite Htr. rewrite Forall_forall. intros r Hr. by apply Hkeep.
    + rewrite length_app in Hlen. cbn in Hlen. lia.
    + split; [by rewrite Hhe|]. intros r. rewrite Hte, Ht, Htr.
      rewrite !elem_of_app, !list_elem_of_singleton. tauto.
Qed.

(** When [format_body] accepts the payloads of the transactions that are
    due and the responses to one flush of an idle queue all report no
    error, the queue is left with exactly the transactions that were not
    due, the instances are what they were, and no cursor is left: the due
    transactions are delivered and gone. *)
Theorem flush_all_delivered (now : datetime) (s : State) (rs : list (bool * datetime)) :
  _trs_to_flush s = None -> pending s = [] ->
  NoDup (_transactions s) ->
  Forall (valid s) (_transactions s) ->
  Forall (sendable s) (List.filter (due now s) (_transactions s)) ->
  Forall (fun r => fst r = false) rs ->
  length rs = length (List.filter (due now s) (_transactions s)) ->
  let s' := run (EvFlush now :: responses rs) s in
  heap s' = heap s /\
  (forall r, r ∈ _transactions s' <-> (r ∈ _transactions s) /\ due now s r = false) /\
  _trs_to_flush s' = None /\ pending s' = [].
Proof.
  intros Hc Hp Hnd Hv Hs Hrs Hlen. cbn zeta.
  destruct (flush_delivers_newest_first now s rs Hc Hp Hnd Hs Hv Hlen)
    as (_ & Hce & Hpe).
  split; [|split; [|done]].
  - change (run (EvFlush now :: responses rs) s)
      with (run (responses rs) (step (EvFlush now) s)).
    destruct (List.filter (due now s) (_transactions s)) as [|y l0 _] eqn:Hdue
      using rev_ind.
    + destruct rs; [|done]. cbn [responses map run fold_left].
      unfold step, exec. change (handle (EvFlush now)) with (flush now).
      by rewrite flush_eq, Hc, select_due_filter, Hdue.
    + assert (Hndf : NoDup (l0 ++ [y])).
      { rewrite <- Hdue. apply (sublist_NoDup _ (_transactions s)); [done|].
        apply filter_sublist. }
      destruct (flush_starts now s l0 y Hc Hp Hv Hdue Hs)
        as (Hc1 & Hst & f & Hp1 & Hf1 & Htr).
      pose proof Hst as (Hh1 & Ht1 & _).
      destruct (chain_drain l0 (step (EvFlush now) s) f rs) as (Hhe & _); try done.
      * by rewrite Htr.
      * rewrite Htr. eapply Forall_impl; [exact Hs|].
        intros r. by apply sendable_same_store.
      * by rewrite Ht1.
      * rewrite length_app in Hlen. cbn in Hlen. lia.
      * by rewrite Hhe.
  - change (run (EvFlush now :: responses rs) s)
      with (run (responses rs) (step (EvFlush now) s)).
    assert (Hmem : forall r, r ∈ List.filter (due now s) (_transactions s) <->
                     (r ∈ _transactions s) /\ due now s r = true).
    { intros r. rewrite !list_elem_of_In, filter_In. tauto. }
    destruct (List.filter (due now s) (_transactions s)) as [|y l0 _] eqn:Hdue
      using rev_ind.
    + destruct rs; [|done]. cbn [responses map run fold_left].
      unfold step, exec. change (handle (EvFlush now)) with (flush now).
      rewrite flush_eq, Hc, select_due_filter, Hdue by done. cbn.
      intros r. split; [|tauto]. intros Hr. split; [done|].
      destruct (due now s r) eqn:Hd; [|done].
      exfalso. eapply not_elem_of_nil. apply Hmem. eauto.
    + assert (Hndf : NoDup (l0 ++ [y])).
      { rewrite <- Hdue. apply (sublist_NoDup _ (_transactions s)); [done|].
        apply filter_sublist. }
      destruct (flush_starts now s l0 y Hc Hp Hv Hdue Hs)
        as (Hc1 & Hst & f & Hp1 & Hf1 & Htr).
      pose proof Hst as (Hh1 & Ht1 & _).
      destruct (chain_drain l0 (step (EvFlush now) s) f rs) as (_ & Hte); try done.
      * by rewrite Htr.
      * rewrite Htr. eapply Forall_impl; [exact Hs|].
        intros r. by apply sendable_same_store.
      * by rewrite Ht1.
      * rewrite length_app in Hlen. cbn in Hlen. lia.
      * intros r. rewrite Hte, Ht1, Htr, Hmem.
        destruct (due now s r); split; intros [? ?]; split; try done;
          try (intros [_ ?]; done); try tauto.
Qed.

(** ** What a callback changes *)

Lemma settle_frame tr (e : bool) now s r :
  r <> tr ->
  (r ∈ _transactions s -> r ∈ _transactions (snd ((if e then error tr now else finish tr) s))) /\
  heap (snd ((if e then error tr now else finish tr) s)) !! r = heap s !! r.
Proof.
  intros Hne. destruct e.
  - rewrite error_eq. destruct (heap s !! tr); [|done]. sproj.
    by rewrite list_lookup_insert_ne.
  - rewrite finish_eq. destruct (heap s !! tr); [|done]. cbn zeta.
    destruct (list_remove tr (_transactions s)) as [trs'|] eqn:Hr; [|done].
    sproj. split; [|done]. intros Hin. by apply (list_remove_elem tr r _ _ Hr).
Qed.

(** A transaction leaves the queue in one way only: by a response without
    error to its own fetch.  No other callback, and no exception, drops
    it. *)
Theorem queued_until_delivered (ev : event) (s : State) (r : nat) :
  r ∈ _transactions s ->
  (r ∈ _transactions (step ev s)) \/
  exists i now f, ev = EvResponse i false now /\ pending s !! i = Some f /\
    fetch_tr f = r.
Proof.
  intros Hin. unfold step, exec. destruct ev as [req n1 n2|now|i e now].
  - left. change (handle (EvPost req n1 n2)) with (post req n1 n2). post_split req p h.
    pose proof (parse_message_same_queue p h s) as Hsq.
    destruct (parse_message p h s) as [[v|x] s1]; cbn [snd] in Hsq;
      destruct Hsq as (_ & Ht & _); [|cbn [snd]; by rewrite Ht].
    destruct (is_PyNone v); [cbn [snd]; by rewrite Ht|].
    destruct (flush_same_store n2 (snd (Transaction_init v n1 s1))) as (_ & Ht2 & _).
    rewrite Ht2, Transaction_init_eq. sproj. rewrite Ht. apply elem_of_app. by left.
  - left. destruct (flush_same_store now s) as (_ & Ht & _).
    change (handle (EvFlush now)) with (flush now). by rewrite Ht.
  - rewrite handle_response_eq. destruct (pending s !! i) as [f|] eqn:Hi; [|by left].
    destruct (decide (r = fetch_tr f)) as [->|Hne].
    + destruct e; [|right; eauto 10]. left.
      rewrite on_response_eq, error_eq. sproj.
      destruct (heap s !! fetch_tr f); [|done]. cbn zeta. cbn [fst snd].
      match goal with |- context [_flush_next ?u ?s1] =>
        destruct (flush_next_same_store u s1) as (_ & Ht & _) end.
      by rewrite Ht.
    + left. rewrite on_response_eq.
      set (s0 := set_fetches (fetches s) (delete i (pending s)) s).
      destruct (settle_frame (fetch_tr f) e now s0 r Hne) as [Hkeep _].
      specialize (Hkeep Hin).
      destruct ((if e then error (fetch_tr f) now else finish (fetch_tr f)) s0)
        as [[[]|x] s1]; cbn [snd] in *; [|done].
      destruct (flush_next_same_store (fetch_url f) s1) as (_ & Ht & _).
      by rewrite Ht.
Qed.

(** A transaction object is changed in one way only: by a response with an
    error to its own fetch, which adds one to its error count and sets its
    next flush time; its number and its payload never change. *)
Theorem changed_only_by_failure (ev : event) (s : State) (r : nat) (o : Transaction) :
  heap s !! r = Some o ->
  heap (step ev s) !! r = Some o \/
  exists i now f, ev = EvResponse i true now /\ pending s !! i = Some f /\
    fetch_tr f = r /\
    heap (step ev s) !! r
      = Some (mkTransaction (_id o) (_data o) (_error_count o + 1)
                (replace_microsecond_0 (now + retry_delay (_error_count o + 1)))).
Proof.
  intros Ho. unfold step, exec. destruct ev as [req n1 n2|now|i e now].
  - left. change (handle (EvPost req n1 n2)) with (post req n1 n2). post_split req p h.
    pose proof (parse_message_same_queue p h s) as Hsq.
    destruct (parse_message p h s) as [[v|x] s1]; cbn [snd] in Hsq;
      destruct Hsq as (Hh & _); [|cbn [snd]; by rewrite Hh].
    destruct (is_PyNone v); [cbn [snd]; by rewrite Hh|].
    destruct (flush_same_store n2 (snd (Transaction_init v n1 s1))) as (Hh2 & _).
    rewrite Hh2, Transaction_init_eq. sproj. rewrite Hh. by apply lookup_app_l_Some.
  - left. destruct (flush_same_store now s) as (Hh & _).
    change (handle (EvFlush now)) with (flush now). by rewrite Hh.
  - rewrite handle_response_eq. destruct (pending s !! i) as [f|] eqn:Hi; [|by left].
    rewrite on_response_eq.
    set (s0 := set_fetches (fetches s) (delete i (pending s)) s).
    destruct (decide (r = fetch_tr f)) as [->|Hne].
    + destruct e.
      * right. exists i, now, f. repeat (split; [done|]).
        rewrite error_eq. cbn [s0 set_fetches heap]. rewrite Ho. cbn zeta.
        match goal with |- context [_flush_next ?u ?s1] =>
          destruct (flush_next_same_store u s1) as (Hh & _) end.
        rewrite Hh. sproj.
        by rewrite list_lookup_insert_eq by (by eapply lookup_lt_Some).
      * left. rewrite finish_eq. cbn [s0 set_fetches heap]. rewrite Ho. cbn zeta.
        destruct (list_remove _ _); cbn [snd]; [|done].
        match goal with |- context [_flush_next ?u ?s1] =>
          destruct (flush_next_same_store u s1) as (Hh & _) end.
        by rewrite Hh.
    + left. destruct (settle_frame (fetch_tr f) e now s0 r Hne) as [_ Hsame].
      destruct ((if e then error (fetch_tr f) now else finish (fetch_tr f)) s0)
        as [[[]|x] s1]; cbn [snd] in *; [|by rewrite Hsame].
      destruct (flush_next_same_store (fetch_url f) s1) as (Hh & _).
      by rewrite Hh, Hsame.
Qed.

(** For any number of due transactions: what one flush of an idle queue
    and the responses that follow it send is always a beginning of the due
    transactions taken newest first; and when [format_body] accepts their
    payloads and as many responses come as transactions were due, all of
    them are sent, newest first, and no cursor is left, whatever the
    responses report. *)
Theorem flush_chain_newest_first (now : datetime) (s : State)
    (rs : list (bool * datetime)) :
  _trs_to_flush s = None -> pending s = [] ->
  NoDup (_transactions s) ->
  Forall (valid s) (_transactions s) ->
  let due_now := List.filter (due now s) (_transactions s) in
  let s' := run (EvFlush now :: responses rs) s in
  (exists sent, map fetch_tr (fetches s') = map fetch_tr (fetches s) ++ sent /\
     sent `prefix_of` rev due_now) /\
  (Forall (sendable s) due_now -> length rs = length due_now ->
   map fetch_tr (fetches s') = map fetch_tr (fetches s) ++ rev due_now /\
   _trs_to_flush s' = None /\ pending s' = []).
Proof.
  intros Hc Hp Hnd Hv. cbn zeta. split.
  - by apply flush_sends_prefix.
  - intros Hs Hlen. by apply flush_delivers_newest_first.
Qed.

End AgentFacts.

(** ** The supervisor *)

Lemma run_checks_tracked executable file firstRun popen self os :
  (forall pid, popen = Some pid ->
     0 < pid /\ ~ In pid (map fst (running os)) /\ ~ In pid (map fst (zombies os))) ->
  tracked (self, os) ->
  tracked (snd (fst (run_checks executable file firstRun popen self os)),
           snd (run_checks executable file firstRun popen self os)).
Proof.
  intros Hos Ht. unfold run_checks.
  destruct (Z.ltb_spec 0 (_check_pid self)) as [Hpos|Hnpos]; [exact Ht|].
  assert (Hrun : running os = []).
  { destruct Ht as [Hr|(args & _ & Hpos)]; cbn in *; [done|lia]. }
  destruct popen as [pid|]; cbn [fst snd].
  - right. exists (check_args executable file firstRun). cbn. rewrite Hrun.
    split; [done|]. by apply (Hos pid).
  - left. exact Hrun.
Qed.

Lemma process_check_tracked self os :
  tracked (self, os) -> tracked (process_check self os).
Proof.
  intros Ht. unfold process_check.
  destruct (Z.ltb_spec 0 (_check_pid self)) as [Hpos|Hnpos]; [|exact Ht].
  cbn [app_logging _check_pid]. unfold waitpid_nohang.
  destruct (existsb (fun c => fst c =? _check_pid self) (running os)) eqn:Hex.
  - cbn. exact Ht.
  - assert (Hrun : running os = []).
    { destruct Ht as [Hr|(args & Hr & _)]; cbn in *; [done|].
      rewrite Hr in Hex. cbn in Hex. rewrite Z.eqb_refl in Hex. discriminate. }
    destruct (zombie_status (_check_pid self) (zombies os)) as [st|]; [|exact Ht].
    destruct (negb _); left; exact Hrun.
Qed.

Lemma child_exits_tracked pid status self os :
  tracked (self, os) -> tracked (self, child_exits pid status os).
Proof.
  intros [Hr|(args & Hr & Hpos)]; cbn in *.
  - left. cbn. by rewrite Hr.
  - unfold tracked. cbn. rewrite Hr. cbn.
    destruct (negb (_check_pid self =? pid)); [right; eauto|by left].
Qed.

Lemma sup_reachable_tracked executable file w :
  sup_reachable executable file w -> tracked w.
Proof.
  induction 1 as [|w w' _ IH Hstep]; [by left|].
  destruct Hstep as [firstRun popen self os Hos|self os|pid status self os Hin].
  - by apply run_checks_tracked.
  - by apply process_check_tracked.
  - by apply child_exits_tracked.
Qed.

(** C8: while [_check_pid] is positive [run_checks] returns [False], starts
    no child and leaves [_check_pid] as it is; and in every state the
    supervisor and the operating system reach, at most one child runs. *)
Theorem run_checks_refused (executable file : string) :
  (forall firstRun popen self os,
     0 < _check_pid self ->
     fst (fst (run_checks executable file firstRun popen self os)) = false /\
     _check_pid (snd (fst (run_checks executable file firstRun popen self os)))
       = _check_pid self /\
     snd (run_checks executable file firstRun popen self os) = os) /\
  (forall w, sup_reachable executable file w -> (length (running (snd w)) <= 1)%nat).
Proof.
  split.
  - intros firstRun popen self os Hpos. unfold run_checks.
    apply Z.ltb_lt in Hpos. by rewrite Hpos.
  - intros w Hw. destruct (sup_reachable_tracked _ _ _ Hw) as [->|(args & -> & _)];
      cbn; lia.
Qed.

(** ** More on the supervisor *)

Lemma zombie_status_In pid z :
  In pid (map fst z) -> is_Some (zombie_status pid z).
Proof.
  induction z as [|[p st] z IH]; [done|]. cbn. intros [->|Hin].
  - rewrite Z.eqb_refl. eauto.
  - destruct (p =? pid); eauto.
Qed.

Lemma run_checks_handle_ok executable file firstRun popen self os :
  (forall pid, popen = Some pid ->
     0 < pid /\ ~ In pid (map fst (running os)) /\ ~ In pid (map fst (zombies os))) ->
  handle_ok (self, os) ->
  handle_ok (snd (fst (run_checks executable file firstRun popen self os)),
             snd (run_checks executable file firstRun popen self os)).
Proof.
  intros Hos Hh. unfold run_checks.
  destruct (Z.ltb_spec 0 (_check_pid self)) as [Hpos|Hnpos]; [exact Hh|].
  destruct Hh as [[Hpid Hrun]|[Hpos _]]; cbn in *; [|lia].
  destruct popen as [pid|]; cbn [fst snd].
  - right. cbn. rewrite Hrun. split; [by apply (Hos pid)|]. left. eauto.
  - left. by cbn.
Qed.

Lemma process_check_handle_ok self os :
  handle_ok (self, os) -> handle_ok (process_check self os).
Proof.
  intros Hh. unfold process_check.
  destruct (Z.ltb_spec 0 (_check_pid self)) as [Hpos|Hnpos]; [|exact Hh].
  cbn [app_logging _check_pid]. unfold waitpid_nohang.
  destruct Hh as [[Hpid _]|[_ [[args Hrun]|[Hrun Hz]]]]; cbn in *; [lia| |].
  - rewrite Hrun. cbn. rewrite Z.eqb_refl. cbn. right. cbn. split; [done|].
    left. eauto.
  - rewrite Hrun. cbn.
    destruct (zombie_status_In _ _ Hz) as [st ->].
    replace (_check_pid self =? 0) with false by (symmetry; apply Z.eqb_neq; lia).
    left. by cbn.
Qed.

Lemma child_exits_handle_ok pid status self os :
  In pid (map fst (running os)) ->
  handle_ok (self, os) -> handle_ok (self, child_exits pid status os).
Proof.
  intros Hin [[_ Hrun]|[Hpos [[args Hrun]|[Hrun _]]]]; cbn in *;
    rewrite Hrun in Hin; cbn in Hin; try done.
  destruct Hin as [<-|[]]. right. cbn. split; [done|]. right.
  rewrite Hrun. cbn. rewrite Z.eqb_refl. cbn. split; [done|].
  rewrite map_app. apply in_or_app. right. by left.
Qed.

Lemma sup_reachable_handle_ok executable file w :
  sup_reachable executable file w -> handle_ok w.
Proof.
  induction 1 as [|w w' _ IH Hstep]; [by left|].
  destruct Hstep as [firstRun popen self os Hos|self os|pid status self os Hin].
  - by apply run_checks_handle_ok.
  - by apply process_check_handle_ok.
  - by apply child_exits_handle_ok.
Qed.

(** In every state the supervisor and the operating system reach,
    [_check_pid] is -1 or the positive pid of a child the process still
    has, so the [waitpid] of [process_check] never raises. *)
Theorem waitpid_never_fails (executable file : string) (self : Application) (os : OS) :
  sup_reachable executable file (self, os) ->
  (_check_pid self = -1 \/ 0 < _check_pid self) /\
  (0 < _check_pid self -> is_Some (waitpid_nohang (_check_pid self) os)).
Proof.
  intros Hr. apply sup_reachable_handle_ok in Hr.
  destruct Hr as [[Hpid _]|[Hpos Hchild]]; cbn in *.
  - split; [by left|]. lia.
  - split; [by right|]. intros _. unfold waitpid_nohang.
    destruct Hchild as [[args Hrun]|[Hrun Hz]].
    + rewrite Hrun. cbn. rewrite Z.eqb_refl. cbn. eauto.
    + rewrite Hrun. cbn. destruct (zombie_status_In _ _ Hz) as [st ->]. eauto.
Qed.

Lemma process_check_handle (self : Application) (os : OS) :
  handle_ok (self, os) ->
  running (snd (process_check self os)) = running os /\
  (running os = [] -> _check_pid (fst (process_check self os)) = -1) /\
  (running os <> [] ->
     _check_pid (fst (process_check self os)) = _check_pid self /\
     snd (process_check self os) = os).
Proof.
  intros Hr. unfold process_check.
  destruct Hr as [[Hpid Hrun]|[Hpos Hchild]]; cbn in *.
  - rewrite Hpid. cbn. rewrite Hrun. done.
  - apply Z.ltb_lt in Hpos. rewrite Hpos. unfold waitpid_nohang.
    destruct Hchild as [[args Hrun]|[Hrun Hz]].
    + rewrite Hrun. cbn. rewrite Z.eqb_refl. cbn. done.
    + rewrite Hrun. cbn. destruct (zombie_status_In _ _ Hz) as [st ->].
      apply Z.ltb_lt in Hpos.
      replace (_check_pid self =? 0) with false by (symmetry; apply Z.eqb_neq; lia).
      done.
Qed.

(** In every state the supervisor and the operating system reach,
    [process_check] leaves the handle clear when no child runs and leaves
    it, and the children, as they are while the child runs. *)
Theorem process_check_outcome (executable file : string) (self : Application) (os : OS) :
  sup_reachable executable file (self, os) ->
  running (snd (process_check self os)) = running os /\
  (running os = [] -> _check_pid (fst (process_check self os)) = -1) /\
  (running os <> [] ->
     _check_pid (fst (process_check self os)) = _check_pid self /\
     snd (process_check self os) = os).
Proof.
  intros Hr. by apply process_check_handle, (sup_reachable_handle_ok executable file).
Qed.

(** Once the child has exited, one [process_check] is enough for the next
    [run_checks] to start a child: it returns [True], tracks the new pid,
    and the child is the only one, started with [--action=runchecks] and
    with [--firstRun=yes] exactly on a first run. *)
Theorem respawn_after_exit (executable file : string) (self : Application) (os : OS)
    (firstRun : bool) (pid : Z) :
  sup_reachable executable file (self, os) ->
  running os = [] ->
  let w := process_check self os in
  let r := run_checks executable file firstRun (Some pid) (fst w) (snd w) in
  fst (fst r) = true /\ _check_pid (snd (fst r)) = pid /\
  running (snd r) =
    [(pid, [executable; file; "--action=runchecks"%string]
           ++ (if firstRun then ["--firstRun=yes"%string] else []))].
Proof.
  intros Hr Hrun. cbn zeta.
  apply sup_reachable_handle_ok in Hr.
  destruct (process_check_handle self os Hr) as (Hrun' & Hclear & _).
  specialize (Hclear Hrun). unfold run_checks. rewrite Hclear. cbn.
  by rewrite Hrun', Hrun.
Qed.

(** When [Popen] raises, [run_checks] returns [False] and changes neither
    the handle nor the children, so that the next call tries again and
    succeeds if [Popen] does. *)
Theorem spawn_failure_retried (executable file : string) (self : Application)
    (os : OS) (firstRun firstRun' : bool) (pid : Z) :
  _check_pid self <= 0 ->
  let r := run_checks executable file firstRun None self os in
  fst (fst r) = false /\ _check_pid (snd (fst r)) = _check_pid self /\ snd r = os /\
  fst (fst (run_checks executable file firstRun' (Some pid) (snd (fst r)) (snd r)))
    = true.
Proof.
  intros Hle. cbn zeta. unfold run_checks.
  apply Z.ltb_ge in Hle. rewrite Hle. cbn. by rewrite Hle.
Qed.

(** ** The arguments [main] leaves *)

Lemma known_existsb arg opts :
  known arg opts = existsb (fun opt => String.prefix opt arg) opts.
Proof.
  induction opts as [|opt rest IH]; [done|]. cbn.
  destruct (String.prefix opt arg); [done|exact IH].
Qed.

Lemma strip_loop_filter opts argv newargs :
  strip_loop opts argv newargs
  = newargs ++ List.filter (fun arg => negb (known arg opts)) argv.
Proof.
  revert newargs. induction argv as [|arg rest IH]; intros newargs; cbn.
  - by rewrite app_nil_r.
  - destruct (known arg opts); cbn; rewrite IH; [done|]. by rewrite <- app_assoc.
Qed.

Lemma prefix_app (a b : string) : String.prefix a (a ++ b) = true.
Proof.
  induction a as [|c a IH]; [by destruct b|]. cbn.
  destruct (Ascii.ascii_dec c c); [exact IH|done].
Qed.

Lemma known_knownoptions arg option_names :
  known arg (knownoptions option_names) = true <->
  exists o, In o option_names /\ String.prefix ("--" ++ o) arg = true.
Proof.
  rewrite known_existsb, existsb_exists. unfold knownoptions. split.
  - intros (opt & Hin & Hpre). apply in_map_iff in Hin as (o & <- & Ho). eauto.
  - intros (o & Ho & Hpre). exists ("--" ++ o)%string. split; [|done].
    apply in_map_iff. eauto.
Qed.

(** What the loops of [main] leave holds, in their order, exactly the
    arguments that no ["--" + option] is a beginning of; stripping it once
    more changes nothing. *)
Lemma strip_known_options_spec (option_names argv : list string) :
  (forall arg, In arg (strip_known_options option_names argv) <->
     In arg argv /\
     forall o, In o option_names -> String.prefix ("--" ++ o) arg = false) /\
  strip_known_options option_names argv `sublist_of` argv /\
  strip_known_options option_names (strip_known_options option_names argv)
    = strip_known_options option_names argv.
Proof.
  unfold strip_known_options. rewrite !strip_loop_filter. cbn [app].
  split; [|split].
  - intros arg. rewrite filter_In, negb_true_iff.
    split; intros [Hin Hk]; (split; [done|]).
    + intros o Ho. destruct (String.prefix ("--" ++ o) arg) eqn:Hp; [|done].
      assert (Hkn : known arg (knownoptions option_names) = true)
        by (apply known_knownoptions; eauto).
      congruence.
    + destruct (known arg (knownoptions option_names)) eqn:Hkn; [|done].
      apply known_knownoptions in Hkn as (o & Ho & Hp). rewrite (Hk o Ho) in Hp.
      discriminate.
  - induction argv as [|arg rest IH]; cbn; [constructor|].
    destruct (negb _); by constructor.
  - induction argv as [|arg rest IH]; [done|]. cbn.
    destruct (negb (known arg (knownoptions option_names))) eqn:Hk; [|exact IH].
    cbn. rewrite Hk. by rewrite IH.
Qed.

Lemma strip_known_options_prefix (option_names argv : list string) (o rest : string) :
  In o option_names ->
  ~ In ("--" ++ o ++ rest)%string (strip_known_options option_names argv).
Proof.
  intros Ho. unfold strip_known_options. rewrite strip_loop_filter. cbn [app].
  rewrite filter_In, negb_true_iff. intros [_ Hk].
  assert (Hkn : known ("--" ++ o ++ rest) (knownoptions option_names) = true).
  { apply known_knownoptions. exists o. split; [done|].
    change ("--" ++ o ++ rest)%string with (("--" ++ o) ++ rest)%string.
    apply prefix_app. }
  congruence.
Qed.

(** When [parse_command_line] does not return, [main] ends there and
    [sys.argv] is not replaced.  When it returns, the [sys.argv] that
    [main] leaves holds, in their order, exactly the arguments that no
    ["--" + option] is a beginning of, the ones [parse_command_line] has
    parsed and the ones it has not alike; stripping it once more changes
    nothing. *)
Theorem main_argv_keeps (parse_command_line : list string -> option (list string))
    (option_names argv : list string) :
  (parse_command_line argv = None ->
   main_argv parse_command_line option_names argv = None) /\
  (forall args, parse_command_line argv = Some args ->
   exists newargs,
     main_argv parse_command_line option_names argv = Some newargs /\
     (forall arg, In arg newargs <->
        In arg argv /\
        forall o, In o option_names -> String.prefix ("--" ++ o) arg = false) /\
     newargs `sublist_of` argv /\
     strip_known_options option_names newargs = newargs).
Proof.
  unfold main_argv. split; [by intros ->|].
  intros args ->. exists (strip_known_options option_names argv).
  split; [done|]. apply strip_known_options_spec.
Qed.

(** In the [sys.argv] that [main] leaves, no argument begins with ["--"]
    and the name of an option, whatever follows the name: [--port=17123]
    is gone, and so is an argument that [parse_command_line] never took for
    an option and whose name only begins like an option's, such as
    [--portable] after the first positional argument. *)
Theorem main_argv_drops (parse_command_line : list string -> option (list string))
    (option_names argv newargs : list string) (o rest : string) :
  main_argv parse_command_line option_names argv = Some newargs ->
  In o option_names ->
  ~ In ("--" ++ o ++ rest)%string newargs.
Proof.
  unfold main_argv. destruct (parse_command_line argv); [|done].
  intros [= <-] Ho. by apply strip_known_options_prefix.
Qed.

(** ** The properties on the sample configuration *)

Example formatter_failure_scenario :
  let s := run (ext := sample_externals) [EvFlush 10] queue_bad in
  fst (flush (ext := sample_externals) 10 queue_bad) = Raise (NameError "logger") /\
  _trs_to_flush s = Some [0%nat] /\ fetches s = [] /\ pending s = [] /\
  map _error_count (heap s) = [0; 0] /\
  fetches (run (ext := sample_externals)
             [EvFlush 20; EvPost (form "d" "md5:d") 30 31; EvFlush 40] s) = [].
Proof. cbn zeta. repeat split; reflexivity. Qed.

Lemma flush_single_flight_guarantee_witness :
  is_Some (_trs_to_flush one_in_flight) /\
  same_queue one_in_flight (snd (flush (ext := sample_externals) 7 one_in_flight)) /\
  _trs_to_flush (step (ext := sample_externals) (EvResponse 0 false 8) one_in_flight)
    = None /\
  @nil nat = [].
Proof.
  destruct (flush_single_flight_guarantee (ext := sample_externals)) as (H1 & _ & H3).
  split; [eexists; reflexivity|].
  split; [apply H1; eexists; reflexivity|].
  split; [reflexivity|].
  apply (H3 (EvResponse 0 false 8) one_in_flight []); reflexivity.
Defined.

Lemma next_flush_is_not_now_plus_delay :
  exists o',
    heap (step (ext := sample_externals) (EvResponse 0 true 1500000) one_in_flight)
      !! 0%nat = Some o' /\
    _error_count o' = 1 /\
    _next_flush o' <> 1500000 + retry_delay (_error_count o').
Proof.
  eexists. split; [reflexivity|]. split; [reflexivity|]. vm_compute. discriminate.
Qed.

Lemma delivery_outcome_witness :
  (1%nat ∉ _transactions (snd (on_response (ext := sample_externals) 1 "u" false 1500000 queue3))) /\
  exists o', heap (snd (on_response (ext := sample_externals) 1 "u" true 1500000 queue3))
               !! 1%nat = Some o' /\
    _error_count o' = 1 /\
    _next_flush o' = replace_microsecond_0 (1500000 + retry_delay (_error_count o')).
Proof.
  destruct (delivery_outcome (ext := sample_externals) queue3 1
              (mkTransaction 2 (PyStr "b") 0 0) "u" 1500000) as [Hok Hfail].
  - apply wf_NoDup, run_wf, wf_initial.
  - apply list_elem_of_In. vm_compute. auto.
  - reflexivity.
  - split; [apply Hok|].
    destruct Hfail as (_ & _ & o' & Ho' & _ & _ & Hcount & Hnext).
    exists o'. split; [exact Ho'|]. split; [exact Hcount|exact Hnext].
Defined.

Lemma retry_delay_is_min_witness :
  retry_delay 2 = timedelta_seconds (Z.min (2 * 20) 60) /\ retry_delay 0 = 0.
Proof. apply retry_delay_is_min. lia. Defined.

Lemma select_due_skips_equal :
  (0%nat ∈ _transactions queue3) /\
  (exists o, heap queue3 !! 0%nat = Some o /\ _next_flush o <= 0) /\
  fst (select_due 0 (_transactions queue3) [] queue3) = Ok [].
Proof.
  split; [apply list_elem_of_In; vm_compute; auto|].
  split; [eexists; split; [reflexivity|cbn; lia]|reflexivity].
Qed.

Lemma select_due_strict_witness :
  exists to_flush,
    select_due 10 (_transactions queue3) [] queue3 = (Ok to_flush, queue3) /\
    forall r, r ∈ to_flush <->
      (r ∈ _transactions queue3) /\
      exists o, heap queue3 !! r = Some o /\ _next_flush o < 10.
Proof. apply select_due_strict. apply wf_valid, run_wf, wf_initial. Defined.

Lemma flush_newest_refused_witness :
  fst (flush (ext := sample_externals) 10 queue_ab_bad) = Raise (NameError "logger") /\
  fetches (run (ext := sample_externals)
             (EvFlush 10 :: responses [(false, 11); (false, 12); (false, 13)])
             queue_ab_bad) = [].
Proof.
  destruct (flush_newest_refused (ext := sample_externals) queue_ab_bad 0 1 2
              (mkTransaction 3 (PyStr "bad") 0 0) 10) as (H1 & _ & _ & _ & H5).
  - reflexivity.
  - reflexivity.
  - apply wf_valid, run_wf, wf_initial.
  - reflexivity.
  - reflexivity.
  - reflexivity.
  - split; [exact H1|].
    apply (H5 (responses [(false, 11); (false, 12); (false, 13)])).
Defined.

Lemma select_due_oldest_first :
  fst (select_due 10 (_transactions queue3) [] queue3) = Ok [0; 1; 2]%nat /\
  map (id_of queue3) [0; 1; 2]%nat = [1; 2; 3].
Proof. split; reflexivity. Qed.



Lemma run_checks_refused_witness :
  fst (fst (run_checks "python" "ddagent.py" false (Some 9)
              (mkApplication 42 []) (mkOS [(42, [])] []))) = false /\
  _check_pid (snd (fst (run_checks "python" "ddagent.py" false (Some 9)
                          (mkApplication 42 []) (mkOS [(42, [])] [])))) = 42.
Proof.
  destruct (proj1 (run_checks_refused "python" "ddagent.py") false (Some 9)
              (mkApplication 42 []) (mkOS [(42, [])] [])) as (H1 & H2 & _).
  - reflexivity.
  - split; [exact H1|exact H2].
Defined.

Lemma formatter_failure_stalls_witness :
  fst (_flush_next (ext := sample_externals) "u" flushing_bad)
    = Raise (NameError "logger") /\
  forall evs,
    fetches (run (ext := sample_externals) evs
               (snd (_flush_next (ext := sample_externals) "u" flushing_bad))) = [].
Proof.
  destruct (formatter_failure_stalls (ext := sample_externals) flushing_bad [0%nat] 1
              (mkTransaction 2 (PyStr "bad") 0 0) "u") as (H1 & _ & _ & _ & _ & _ & H7);
    try reflexivity.
  split; [exact H1|]. intros evs. apply (H7 evs).
Defined.


Example main_sample_argv :
  main_argv sample_parse_command_line sample_options sample_argv
    = Some ["ddagent.py"; "start"; "--config=/etc/dd.conf"]%string /\
  sample_parse_command_line sample_argv
    = Some ["start"; "--config=/etc/dd.conf"; "--portable"]%string /\
  main_argv sample_parse_command_line sample_options unrecognised_argv = None.
Proof. repeat split; reflexivity. Qed.

Lemma ids_increase_witness :
  exists o0 o2, heap queue3 !! 0%nat = Some o0 /\ heap queue3 !! 2%nat = Some o2 /\
    _id o0 < _id o2.
Proof.
  destruct (ids_increase (ext := sample_externals)
              [EvPost (form "a" "md5:a") 0 0; EvPost (form "b" "md5:b") 0 0;
               EvPost (form "c" "md5:c") 0 0])
    as (Hlt & _ & _).
  exists (mkTransaction 1 (PyStr "a") 0 0), (mkTransaction 3 (PyStr "c") 0 0).
  split; [reflexivity|]. split; [reflexivity|].
  apply (Hlt 0%nat 2%nat); [reflexivity|reflexivity|lia].
Defined.

Lemma flush_nothing_due_witness :
  flush (ext := sample_externals) 0 queue3 = (Ok tt, queue3).
Proof.
  apply flush_nothing_due.
  - reflexivity.
  - apply wf_valid, run_wf, wf_initial.
  - intros r Hr. apply list_elem_of_In in Hr.
    destruct Hr as [<-|[<-|[<-|[]]]]; reflexivity.
Defined.

Lemma retry_window_witness :
  let s' := snd (on_response (ext := sample_externals) 1 "u" true 1500000 queue3) in
  (exists to_flush,
     select_due 20000000 (_transactions s') [] s' = (Ok to_flush, s') /\
     1%nat ∉ to_flush) /\
  (exists to_flush,
     select_due 62000000 (_transactions s') [] s' = (Ok to_flush, s') /\
     1%nat ∈ to_flush).
Proof.
  cbn zeta. split.
  - destruct (retry_window (ext := sample_externals) 1 "u" 1500000 20000000 queue3
                (mkTransaction 2 (PyStr "b") 0 0))
      as [(l & Hsel & _ & Hearly & _) _].
    + reflexivity.
    + cbn. lia.
    + apply list_elem_of_In. vm_compute. auto.
    + apply wf_valid, run_wf, wf_initial.
    + exists l. split; [exact Hsel|]. apply Hearly.
      unfold timedelta_seconds, MICROS. lia.
  - destruct (retry_window (ext := sample_externals) 1 "u" 1500000 62000000 queue3
                (mkTransaction 2 (PyStr "b") 0 0))
      as [(l & Hsel & _ & _ & Hlate & _) _].
    + reflexivity.
    + cbn. lia.
    + apply list_elem_of_In. vm_compute. auto.
    + apply wf_valid, run_wf, wf_initial.
    + exists l. split; [exact Hsel|]. apply Hlate.
      unfold timedelta_seconds, MICROS. lia.
Defined.

Lemma in_flight_queued_witness :
  (fetch_tr fetch_x ∈ _transactions one_in_flight) /\
  (fetch_tr fetch_x ∉ cursor_list one_in_flight).
Proof.
  apply (proj1 (in_flight_queued (ext := sample_externals) [EvPost (form "x" "md5:x") 5 6])).
  apply list_elem_of_In. vm_compute. auto.
Defined.

Lemma delivered_never_resent_witness :
  sent_count 0
    (run (ext := sample_externals)
       [EvPost (form "y" "md5:y") 9 10; EvFlush 11; EvResponse 0 true 12; EvFlush 100]
       (step (ext := sample_externals) (EvResponse 0 false 8) one_in_flight))
  = 1%nat.
Proof.
  exact (delivered_never_resent (ext := sample_externals) [EvPost (form "x" "md5:x") 5 6]
           [EvPost (form "y" "md5:y") 9 10; EvFlush 11; EvResponse 0 true 12; EvFlush 100]
           0 (mkFetch (mkHTTPRequest "https://app.example.com/intake/" "POST"
                         (Some "x"%string))
                0 "https://app.example.com/intake/") 8 eq_refl).
Defined.

Lemma requests_well_formed_witness :
  req_method (fetch_req fetch_x) = "POST"%string /\
  req_url (fetch_req fetch_x) = "https://app.example.com/intake/"%string.
Proof.
  destruct (requests_well_formed (ext := sample_externals) [EvPost (form "x" "md5:x") 5 6]
              fetch_x) as (Hm & Hu & _).
  - apply list_elem_of_In. vm_compute. auto.
  - split; [exact Hm|exact Hu].
Defined.

Lemma post_sends_new_first_witness :
  (map fetch_tr
     (pending (snd (post (ext := sample_externals) (form "d" "md5:d") 5 6 queue3)))
     = [3%nat] /\
   _trs_to_flush (snd (post (ext := sample_externals) (form "d" "md5:d") 5 6 queue3))
     = Some [0; 1; 2]%nat) /\
  (fst (intake (ext := sample_externals) (form "bad" "md5:bad") 5 6 queue3) = 500 /\
   fetches (snd (post (ext := sample_externals) (form "bad" "md5:bad") 5 6 queue3)) = [] /\
   _trs_to_flush (snd (post (ext := sample_externals) (form "bad" "md5:bad") 5 6 queue3))
     = Some [0; 1; 2]%nat).
Proof.
  split.
  - destruct (post_sends_new_first (ext := sample_externals) (form "d" "md5:d") 5 6
                queue3 (PyStr "d")) as (Hc & _ & Hp & _).
    + reflexivity.
    + reflexivity.
    + apply wf_valid, run_wf, wf_initial.
    + reflexivity.
    + lia.
    + split; [by rewrite Hp|exact Hc].
  - destruct (post_sends_new_first (ext := sample_externals) (form "bad" "md5:bad") 5 6
                queue3 (PyStr "bad")) as (Hc & _ & Hs & _ & Hf).
    + reflexivity.
    + reflexivity.
    + apply wf_valid, run_wf, wf_initial.
    + reflexivity.
    + lia.
    + split; [exact Hs|]. split; [exact Hf|exact Hc].
Defined.

Lemma post_leaves_new_for_later_witness :
  (3%nat ∈ _transactions (snd (post (ext := sample_externals) (form "d" "md5:d") 0 0 queue3))) /\
  (3%nat ∉ cursor_list (snd (post (ext := sample_externals) (form "d" "md5:d") 0 0 queue3))
           ++ in_flight (snd (post (ext := sample_externals) (form "d" "md5:d") 0 0 queue3))).
Proof.
  apply (post_leaves_new_for_later (ext := sample_externals) (form "d" "md5:d") 0 0 queue3
           (PyStr "d")).
  - reflexivity.
  - reflexivity.
  - apply wf_valid, run_wf, wf_initial.
  - reflexivity.
  - lia.
Defined.

Lemma flush_all_delivered_witness :
  let s' := run (ext := sample_externals)
              (EvFlush 10 :: responses [(false, 11); (false, 12); (false, 13)]) queue3 in
  (forall r, r ∈ _transactions s' <->
     (r ∈ _transactions queue3) /\ due 10 queue3 r = false) /\
  _trs_to_flush s' = None.
Proof.
  destruct (flush_all_delivered (ext := sample_externals) 10 queue3
              [(false, 11); (false, 12); (false, 13)]) as (_ & Hq & Hc & _).
  - reflexivity.
  - reflexivity.
  - apply wf_NoDup, run_wf, wf_initial.
  - apply wf_valid, run_wf, wf_initial.
  - repeat constructor; try (apply list_elem_of_In; vm_compute; auto);
      eexists; (split; [reflexivity|eexists; reflexivity]).
  - repeat constructor.
  - reflexivity.
  - split; [exact Hq|exact Hc].
Defined.

Lemma spawned_reachable : sup_reachable "python" "ddagent.py" spawned.
Proof.
  apply (reach_step _ _ (Application_init, mkOS [] [])); [apply reach_init|].
  apply (step_run_checks "python" "ddagent.py" true (Some 42) Application_init
           (mkOS [] [])).
  intros pid [= <-]. cbn. split; [lia|tauto].
Qed.

Lemma exited_reachable : sup_reachable "python" "ddagent.py" exited.
Proof.
  apply (reach_step _ _ spawned); [apply spawned_reachable|].
  apply (step_child_exits "python" "ddagent.py" 42 0 (fst spawned) (snd spawned)).
  cbn. by left.
Qed.

Lemma waitpid_never_fails_witness :
  is_Some (waitpid_nohang 42 (snd exited)).
Proof.
  apply (waitpid_never_fails "python" "ddagent.py" (fst exited) (snd exited)
           exited_reachable).
  reflexivity.
Defined.

Lemma process_check_outcome_witness :
  _check_pid (fst (process_check (fst exited) (snd exited))) = -1 /\
  _check_pid (fst (process_check (fst spawned) (snd spawned))) = 42.
Proof.
  split.
  - apply (process_check_outcome "python" "ddagent.py" (fst exited) (snd exited)
             exited_reachable). reflexivity.
  - apply (process_check_outcome "python" "ddagent.py" (fst spawned) (snd spawned)
             spawned_reachable). discriminate.
Defined.

Lemma respawn_after_exit_witness :
  fst (fst (run_checks "python" "ddagent.py" false (Some 57)
              (fst (process_check (fst exited) (snd exited)))
              (snd (process_check (fst exited) (snd exited))))) = true.
Proof.
  apply (respawn_after_exit "python" "ddagent.py" (fst exited) (snd exited) false 57
           exited_reachable).
  reflexivity.
Defined.

Lemma spawn_failure_retried_witness :
  fst (fst (run_checks "python" "ddagent.py" true None Application_init (mkOS [] [])))
    = false.
Proof.
  apply (spawn_failure_retried "python" "ddagent.py" Application_init (mkOS [] [])
           true false 42).
  cbn. lia.
Defined.

Lemma main_argv_keeps_witness :
  exists newargs,
    main_argv sample_parse_command_line sample_options sample_argv = Some newargs /\
    In "--config=/etc/dd.conf"%string newargs /\
    strip_known_options sample_options newargs = newargs.
Proof.
  destruct (main_argv_keeps sample_parse_command_line sample_options sample_argv)
    as [_ H].
  destruct (H ["start"; "--config=/etc/dd.conf"; "--portable"]%string eq_refl)
    as (newargs & Hmain & Hin & _ & Hidem).
  exists newargs. split; [exact Hmain|]. split; [|exact Hidem].
  apply Hin. split; [vm_compute; auto 10|].
  intros o Ho. vm_compute in Ho.
  repeat (destruct Ho as [<-|Ho]; [reflexivity|]). destruct Ho.
Defined.

Lemma main_argv_drops_witness :
  In "--portable"%string sample_argv /\
  exists newargs,
    main_argv sample_parse_command_line sample_options sample_argv = Some newargs /\
    ~ In "--portable"%string newargs.
Proof.
  split; [vm_compute; auto 10|].
  exists ["ddagent.py"; "start"; "--config=/etc/dd.conf"]%string.
  split; [reflexivity|].
  apply (main_argv_drops sample_parse_command_line sample_options sample_argv
           ["ddagent.py"; "start"; "--config=/etc/dd.conf"]%string "port" "able").
  - reflexivity.
  - vm_compute. auto 20.
Defined.

Lemma queued_until_delivered_witness :
  1%nat ∈ _transactions (step (ext := sample_externals) (EvFlush 10) queue3).
Proof.
  destruct (queued_until_delivered (ext := sample_externals) (EvFlush 10) queue3 1)
    as [Hin|(i & now & f & Hev & _)].
  - apply list_elem_of_In. vm_compute. auto.
  - exact Hin.
  - discriminate Hev.
Defined.

Lemma changed_only_by_failure_witness :
  heap (step (ext := sample_externals) (EvResponse 0 true 1500000) one_in_flight)
    !! 0%nat
  = Some (mkTransaction 1 (PyStr "x") 1 21000000).
Proof.
  destruct (changed_only_by_failure (ext := sample_externals)
              (EvResponse 0 true 1500000) one_in_flight 0
              (mkTransaction 1 (PyStr "x") 0 5) eq_refl)
    as [Hsame|(i & now & f & Hev & _ & _ & Hnew)].
  - discriminate Hsame.
  - injection Hev as <- <-. exact Hnew.
Defined.

Lemma flush_chain_newest_first_witness :
  map fetch_tr
    (fetches (run (ext := sample_externals)
                (EvFlush 10 :: responses [(false, 11); (true, 12); (false, 13)])
                queue3))
  = [2; 1; 0]%nat.
Proof.
  destruct (flush_chain_newest_first (ext := sample_externals) 10 queue3
              [(false, 11); (true, 12); (false, 13)]) as [_ Hall].
  - reflexivity.
  - reflexivity.
  - apply wf_NoDup, run_wf, wf_initial.
  - apply wf_valid, run_wf, wf_initial.
  - apply Hall; [|reflexivity].
    repeat constructor; try (apply list_elem_of_In; vm_compute; auto);
      eexists; (split; [reflexivity|eexists; reflexivity]).
Defined.
